(** * A shallow embedding of the protocol-buffers wire cursor [pbf.hpp]

    The C++ struct [mapbox::util::pbf] is a forward-only cursor over an
    immutable byte range.  This development embeds every member function of
    the struct as a function in a small monad that threads the cursor,
    reports C++ exceptions and failed [assert]s as distinguished outcomes,
    and records the address of every byte the function loads.

    Conventions of the embedding.
    - Addresses ([const char *]) are mathematical integers; the buffer is a
      total map from addresses to bytes, and the log of loaded addresses is
      what tells an in-range read from an out-of-range one.  Pointer
      arithmetic therefore never wraps.
    - A [char] is represented by its unsigned value (see [char_mask_signed]:
      the two masks the code applies give the same integer whether [char]
      is signed or not).
    - A value of an integer type [T] is the integer it denotes; arithmetic
      in [T] is followed by [wrap T].  [T] is at least as wide as [int],
      so that no integer promotion takes place.  A left shift by less than
      the width of [T] is the mathematical shift followed by [wrap T].
      C++ leaves a left shift by the width or more undefined; what the
      platform then returns is the parameter [overshift] of the embedding
      (see [overshift_modular] and [overshift_zero]).  In a signed [T] a
      left shift wraps and a right shift is arithmetic (as C++20 fixes
      them, and as compilers did before).
    - [assert] is the macro of <cassert>: with [debug = true] (NDEBUG not
      defined) the condition is evaluated and a false condition aborts;
      with [debug = false] the condition is not evaluated at all. *)

From Stdlib Require Import ZArith List Bool Lia String Btauto.
From coqutil Require Import Byte Z.bitblast Z.prove_Zeq_bitwise.
Import ListNotations.
Local Open Scope Z_scope.

Module Pbf.

(** ** Integer types (the template parameter [T]) *)

Record int_type : Type := IntType { bits : Z; is_signed : bool }.

Definition uint32_t : int_type := IntType 32 false.
Definition uint64_t : int_type := IntType 64 false.
Definition int32_t : int_type := IntType 32 true.
Definition int64_t : int_type := IntType 64 true.

(** Conversion of an integer to [T]: reduction modulo [2^bits], read in
    two's complement when [T] is signed. *)
Definition wrap (T : int_type) (z : Z) : Z :=
  if is_signed T
  then (z + 2 ^ (bits T - 1)) mod 2 ^ bits T - 2 ^ (bits T - 1)
  else z mod 2 ^ bits T.

(** ** The cursor *)

Record pbf : Type := mk_pbf {
  data : Z;
  end_ : Z;
  value : Z;
  tag : Z
}.

(** [pbf::pbf(const char *data_, size_t length)] *)
Definition new_pbf (data_ length : Z) : pbf :=
  mk_pbf data_ (data_ + length) 0 0.

Definition wire_type (c : pbf) : Z := Z.land (value c) 7.

Definition is_wire_type (c : pbf) (type : Z) : bool := wire_type c =? type.

(** [pbf::operator bool] *)
Definition to_bool (c : pbf) : bool := data c <? end_ c.

(** ** Outcomes and the cursor monad *)

Inductive exn : Type :=
| unterminated_varint_exception
| varint_too_long_exception
| unknown_field_type_exception
| end_of_buffer_exception.

Inductive failure : Type :=
| Throw (e : exn)
| AssertionFailed (msg : string)
| OutOfFuel.

Inductive outcome (A : Type) : Type :=
| Ok (a : A)
| Fail (f : failure).
Arguments Ok {A} a.
Arguments Fail {A} f.

(** A computation maps the cursor to an outcome, the cursor it leaves
    behind, and the addresses it loaded, in order. *)
Definition M (A : Type) : Type := pbf -> outcome A * pbf * list Z.

Definition ret {A} (a : A) : M A := fun c => (Ok a, c, []).

Definition fail {A} (f : failure) : M A := fun c => (Fail f, c, []).

Definition throw {A} (e : exn) : M A := fail (Throw e).

Definition bind {A B} (m : M A) (k : A -> M B) : M B :=
  fun c =>
    match m c with
    | (Ok a, c1, r1) =>
        match k a c1 with
        | (o, c2, r2) => (o, c2, r1 ++ r2)
        end
    | (Fail f, c1, r1) => (Fail f, c1, r1)
    end.

Notation "x <- m ;; k" := (bind m (fun x => k))
  (at level 61, m at next level, right associativity).
Notation "m ;;; k" := (bind m (fun _ => k))
  (at level 61, right associativity).

Definition get : M pbf := fun c => (Ok c, c, []).

Definition set_data (d : Z) : M unit :=
  fun c => (Ok tt, mk_pbf d (end_ c) (value c) (tag c), []).

Definition set_value (v : Z) : M unit :=
  fun c => (Ok tt, mk_pbf (data c) (end_ c) v (tag c), []).

Definition set_tag (t : Z) : M unit :=
  fun c => (Ok tt, mk_pbf (data c) (end_ c) (value c) t, []).

Definition outcome_of {A} (x : outcome A * pbf * list Z) : outcome A := fst (fst x).
Definition cursor_of {A} (x : outcome A * pbf * list Z) : pbf := snd (fst x).
Definition reads_of {A} (x : outcome A * pbf * list Z) : list Z := snd x.

(** The buffer viewed as a memory: the bytes of [l] at addresses
    [0 .. length l - 1]. *)
Definition mem_of (l : list byte) : Z -> byte :=
  fun a => if a <? 0 then Byte.x00 else nth (Z.to_nat a) l Byte.x00.

Section Cursor.

Variable debug : bool.
Variable overshift : int_type -> Z -> Z -> Z.
Variable mem : Z -> byte.

(** [x << n] in the type [T]. *)
Definition shl (T : int_type) (x n : Z) : Z :=
  if n <? bits T then wrap T (Z.shiftl x n) else wrap T (overshift T x n).

(** [*p]: one byte is loaded and its address logged. *)
Definition load (p : Z) : M byte := fun c => (Ok (mem p), c, [p]).

(** The [n] bytes from [p] on (what [memcpy] and the [std::string]
    constructor read). *)
Fixpoint load_range (p : Z) (n : nat) : M (list byte) :=
  match n with
  | O => ret []
  | S n' => b <- load p ;; bs <- load_range (p + 1) n' ;; ret (b :: bs)
  end.

Definition assert_ (cond : M bool) (msg : string) : M unit :=
  if debug
  then b <- cond ;; if b : bool then ret tt else fail (AssertionFailed msg)
  else ret tt.

Definition pure_cond (f : pbf -> bool) : M bool := c <- get ;; ret (f c).

(** ** [pbf::skipBytes] *)
Definition skipBytes (bytes : Z) : M unit :=
  c <- get ;;
  if data c + bytes >? end_ c
  then throw end_of_buffer_exception
  else set_data (data c + bytes).

(** ** [pbf::varint]

    The [for] loop: [fuel] bounds the iterations that are left; the loop
    itself stops at [bitpos = 70], so ten units of fuel are never used up
    (lemma [varint_loop_fuel]). *)
Fixpoint varint_loop (T : int_type) (fuel : nat)
    (bitpos : Z) (byte : Init.Byte.byte) (result : Z)
    : M (Z * Init.Byte.byte * Z) :=
  if (bitpos <? 70) && negb (Z.land (byte.unsigned byte) 0x80 =? 0) then
    match fuel with
    | O => fail OutOfFuel
    | S fuel' =>
        c <- get ;;
        if data c >=? end_ c then throw unterminated_varint_exception
        else
          b <- load (data c) ;;
          let result' :=
            Z.lor result
              (shl T (Z.land (wrap T (byte.unsigned b)) 0x7F) bitpos) in
          set_data (data c + 1) ;;;
          varint_loop T fuel' (bitpos + 7) b result'
    end
  else ret (bitpos, byte, result).

Definition varint (T : int_type) : M Z :=
  assert_ (pure_cond (fun c => is_wire_type c 0 || is_wire_type c 2))
          "not a varint" ;;;
  r <- varint_loop T 10 0 Byte.x80 0 ;;
  let '(bitpos, byte, result) := r in
  if (bitpos =? 70) && negb (Z.land (byte.unsigned byte) 0x80 =? 0)
  then throw varint_too_long_exception
  else ret result.

(** ** [pbf::svarint] *)
Definition svarint (T : int_type) : M Z :=
  n <- varint T ;;
  ret (wrap T (Z.lxor (Z.shiftr n 1) (wrap T (- wrap T (Z.land n 1))))).

(** ** [pbf::next()] *)
Definition next : M bool :=
  c <- get ;;
  if data c <? end_ c then
    v <- varint uint32_t ;;
    set_value (wrap uint32_t v) ;;;
    set_tag (Z.shiftr (wrap uint32_t v) 3) ;;;
    ret true
  else ret false.

(** ** [pbf::fixed]

    The result is the object representation that [memcpy] copies: the
    [bytes] bytes before the new position, lowest address first. *)
Definition fixed (bytes : Z) : M (list byte) :=
  assert_ (pure_cond (fun c => (is_wire_type c 5 && (bytes =? 4))
                               || (is_wire_type c 1 && (bytes =? 8))))
          "not a fixed of right size" ;;;
  skipBytes (wrap uint32_t bytes) ;;;
  c <- get ;;
  load_range (data c - bytes) (Z.to_nat bytes).

Definition float32 : M (list byte) :=
  assert_ (pure_cond (fun c => is_wire_type c 5)) "not a 32-bit fixed" ;;;
  fixed 4.

Definition float64 : M (list byte) :=
  assert_ (pure_cond (fun c => is_wire_type c 1)) "not a 64-bit fixed" ;;;
  fixed 8.

(** ** [pbf::string] *)
Definition string_ : M (list byte) :=
  assert_ (pure_cond (fun c => is_wire_type c 2)) "not a string" ;;;
  v <- varint uint32_t ;;
  let bytes := wrap uint32_t v in
  c <- get ;;
  let pos := data c in
  skipBytes bytes ;;;
  load_range pos (Z.to_nat bytes).

(** ** [pbf::boolean] *)
Definition boolean : M bool :=
  assert_ (pure_cond (fun c => is_wire_type c 0)) "not a varint" ;;;
  assert_ (c <- get ;; b <- load (data c) ;;
           ret (Z.land (byte.unsigned b) 0x80 =? 0))
          "not a 1 byte varint" ;;;
  skipBytes 1 ;;;
  c <- get ;;
  b <- load (data c - 1) ;;
  ret (negb (byte.unsigned b =? 0)).

(** ** [pbf::message] *)
Definition message : M pbf :=
  assert_ (pure_cond (fun c => is_wire_type c 2)) "not a message" ;;;
  v <- varint uint32_t ;;
  let bytes := wrap uint32_t v in
  c <- get ;;
  let pos := data c in
  skipBytes bytes ;;;
  ret (new_pbf pos bytes).

(** ** [pbf::skipValue] and [pbf::skip] *)
Definition skipValue (val : Z) : M unit :=
  match Z.land val 7 with
  | 0 => varint uint32_t ;;; ret tt
  | 1 => skipBytes 8
  | 2 => v <- varint uint32_t ;; skipBytes (wrap uint32_t v)
  | 5 => skipBytes 4
  | _ => throw unknown_field_type_exception
  end.

Definition skip : M unit :=
  c <- get ;; skipValue (value c).

(** ** [pbf::next(uint32_t)]

    The [while] loop.  Every iteration that goes on consumes at least the
    byte of a field key, so one unit of fuel per remaining byte, and one
    for the last call of [next], is enough (lemma [next_tag_loop_fuel]). *)
Fixpoint next_tag_loop (fuel : nat) (requested_tag : Z) : M bool :=
  match fuel with
  | O => fail OutOfFuel
  | S fuel' =>
      b <- next ;;
      if b : bool then
        c <- get ;;
        if tag c =? requested_tag then ret true
        else skip ;;; next_tag_loop fuel' requested_tag
      else ret false
  end.

Definition next_tag (requested_tag : Z) : M bool :=
  c <- get ;;
  next_tag_loop (S (Z.to_nat (end_ c - data c))) requested_tag.

End Cursor.

(** ** Vocabulary of the properties *)

(** The continuation bit of a byte, as the loop of [varint] tests it. *)
Definition continues (b : byte) : bool :=
  negb (Z.land (byte.unsigned b) 0x80 =? 0).

(** The seven payload bits of a byte. *)
Definition group (b : byte) : Z := Z.land (byte.unsigned b) 0x7F.

(** The unbounded integer a sequence of bytes denotes as a base-128
    little-endian numeral. *)
Fixpoint varint_value (bs : list byte) : Z :=
  match bs with
  | [] => 0
  | b :: bs' => Z.lor (group b) (Z.shiftl (varint_value bs') 7)
  end.

(** A complete varint: continuation bytes closed by one byte whose high bit
    is clear. *)
Fixpoint is_varint (bs : list byte) : bool :=
  match bs with
  | [] => false
  | b :: bs' =>
      match bs' with
      | [] => negb (continues b)
      | _ :: _ => continues b && is_varint bs'
      end
  end.

(** [bs] lies in memory from address [p] on. *)
Fixpoint stored (mem : Z -> byte) (p : Z) (bs : list byte) : Prop :=
  match bs with
  | [] => True
  | b :: bs' => mem p = b /\ stored mem (p + 1) bs'
  end.

(** The addresses [p, p+1, ..., p+n-1]. *)
Fixpoint addrs (p : Z) (n : nat) : list Z :=
  match n with
  | O => []
  | S n' => p :: addrs (p + 1) n'
  end.

(** Two platforms, for the examples: a shifter that takes the count
    modulo the width of the type (x86), and one that shifts every bit
    out (ARM). *)
Definition overshift_modular (T : int_type) (x n : Z) : Z :=
  Z.shiftl x (n mod bits T).

Definition overshift_zero (T : int_type) (x n : Z) : Z := 0.

(** A platform on which a shift by the width of [T] or more leaves no bit
    of the operand. *)
Definition shifts_out (overshift : int_type -> Z -> Z -> Z) (T : int_type) : Prop :=
  forall x n, bits T <= n -> wrap T (overshift T x n) = 0.

(** The cursor moved forward by [n] bytes. *)
Definition advance (c : pbf) (n : Z) : pbf :=
  mk_pbf (data c + n) (end_ c) (value c) (tag c).

(** One turn of the loop of [varint] on its accumulator:
    [result |= ((T)b & 0x7F) << bitpos]. *)
Definition add_group (overshift : int_type -> Z -> Z -> Z) (T : int_type)
    (bitpos result : Z) (b : byte) : Z :=
  Z.lor result (shl overshift T (Z.land (wrap T (byte.unsigned b)) 0x7F) bitpos).

(** The accumulator after the bytes [bs]. *)
Fixpoint accumulate (overshift : int_type -> Z -> Z -> Z) (T : int_type)
    (bitpos result : Z) (bs : list byte) : Z :=
  match bs with
  | [] => result
  | b :: bs' =>
      accumulate overshift T (bitpos + 7) (add_group overshift T bitpos result b) bs'
  end.

(** The byte the loop holds after the bytes [bs], having held [b]. *)
Fixpoint last_of (b : byte) (bs : list byte) : byte :=
  match bs with
  | [] => b
  | x :: bs' => last_of x bs'
  end.

(** What a run started at cursor [c] may do: keep [end], move [data]
    forward but not past [end], and load only bytes from [lo] up to, and
    not including, [end]. *)
Definition bounded {A} (lo : Z) (c : pbf) (x : outcome A * pbf * list Z) : Prop :=
  end_ (cursor_of x) = end_ c /\
  data c <= data (cursor_of x) <= end_ c /\
  Forall (fun a => lo <= a < end_ c) (reads_of x).

(** The same with the loads confined to what was left to read,
    [[data c, end c)]. *)
Definition in_bounds {A} (c : pbf) (x : outcome A * pbf * list Z) : Prop :=
  bounded (data c) c x.

(** The precondition on the wire type that an [assert] states; it matters
    only where asserts are compiled in. *)
Definition wire_type_in (debug : bool) (c : pbf) (types : list Z) : Prop :=
  debug = false \/ In (wire_type c) types.

(** A run with the loads [r] ahead of its own. *)
Definition prepend_reads {A} (r : list Z) (x : outcome A * pbf * list Z)
    : outcome A * pbf * list Z :=
  (outcome_of x, cursor_of x, r ++ reads_of x).

(** [pbf sub = parent.message(); k(sub);]: the sub-cursor is a value of its
    own; [k] runs on it and the parent keeps its state. *)
Definition message_then {A} (debug : bool)
    (overshift : int_type -> Z -> Z -> Z) (mem : Z -> byte) (k : M A)
    : M (outcome A * pbf * list Z) :=
  sub <- message debug overshift mem ;; ret (k sub).

(** [skipped t c c' r]: from [c], zero or more fields whose tag differs
    from [t] were advanced onto with [next] and discarded with [skip],
    which leaves the cursor [c'] and loaded the addresses [r]. *)
Inductive skipped (debug : bool) (overshift : int_type -> Z -> Z -> Z)
    (mem : Z -> byte) (t : Z)
    : pbf -> pbf -> list Z -> Prop :=
| skipped_none : forall c, skipped debug overshift mem t c c []
| skipped_field : forall c c1 c2 c3 r1 r2 r3,
    next debug overshift mem c = (Ok true, c1, r1) ->
    (tag c1 =? t) = false ->
    skip debug overshift mem c1 = (Ok tt, c2, r2) ->
    skipped debug overshift mem t c2 c3 r3 ->
    skipped debug overshift mem t c c3 (r1 ++ r2 ++ r3).

(** Modelled from the spec: the write path, which the repository does not
    have; it serves to state the round trip only.  [zigzag w v] is the
    ZigZag image [(v << 1) ^ (v >> (w - 1))] of the [w]-bit signed [v]. *)
Definition zigzag (w v : Z) : Z :=
  Z.land (Z.lxor (Z.shiftl v 1) (Z.shiftr v (w - 1))) (Z.ones w).

(** Modelled from the spec: the base-128 encoding of [n], seven bits a
    byte from the lowest on, every byte but the last with the bit [0x80];
    ten bytes hold any value below [2^70]. *)
Fixpoint encode_varint (fuel : nat) (n : Z) : list byte :=
  match fuel with
  | O => []
  | S fuel' =>
      if n <? 128 then [byte.of_Z n]
      else byte.of_Z (Z.lor (Z.land n 0x7F) 0x80)
             :: encode_varint fuel' (Z.shiftr n 7)
  end.

(** Modelled from the spec: the zigzag-varint encoding of the [w]-bit
    signed [v]. *)
Definition encode_svarint (w v : Z) : list byte :=
  encode_varint 10 (zigzag w v).

(** An outcome with its value forgotten: what is left of an accessor when
    the caller discards what it returns. *)
Definition discard {A} (o : outcome A) : outcome unit :=
  match o with
  | Ok _ => Ok tt
  | Fail f => Fail f
  end.

(** Modelled from the spec: the key of a field as the wire format packs it,
    [(field_number << 3) | wire_type]; the repository only unpacks keys. *)
Definition pack_key (field wt : Z) : Z := Z.lor (Z.shiftl field 3) wt.

(** Modelled from the spec: the values of the four wire types the reader
    knows, and the layout of a message on the wire, which the repository
    only reads: field after field, each one its key and then its value, a
    length-delimited value with its length as a varint ahead of it. *)
Inductive field_value : Type :=
| V_varint (n : Z)
| V_fixed64 (bs : list byte)
| V_bytes (bs : list byte)
| V_fixed32 (bs : list byte).

Definition wire_type_of (v : field_value) : Z :=
  match v with
  | V_varint _ => 0
  | V_fixed64 _ => 1
  | V_bytes _ => 2
  | V_fixed32 _ => 5
  end.

Definition encode_value (v : field_value) : list byte :=
  match v with
  | V_varint n => encode_varint 10 n
  | V_fixed64 bs => bs
  | V_bytes bs => encode_varint 10 (Z.of_nat (List.length bs)) ++ bs
  | V_fixed32 bs => bs
  end.

Definition encode_key (f : Z * field_value) : list byte :=
  encode_varint 10 (pack_key (fst f) (wire_type_of (snd f))).

Definition encode_field (f : Z * field_value) : list byte :=
  encode_key f ++ encode_value (snd f).

Definition encode_fields (fs : list (Z * field_value)) : list byte :=
  flat_map encode_field fs.

(** A field the wire format can hold: a field number of 29 bits, a varint
    of 64, fixed-width values of eight and of four bytes, a payload whose
    length fits 32 bits. *)
Definition well_formed (f : Z * field_value) : Prop :=
  0 <= fst f < 2 ^ 29 /\
  match snd f with
  | V_varint n => 0 <= n < 2 ^ 64
  | V_fixed64 bs => List.length bs = 8%nat
  | V_bytes bs => Z.of_nat (List.length bs) < 2 ^ 32
  | V_fixed32 bs => List.length bs = 4%nat
  end.

(** The first field numbered [t] of [fs]: its value, and the offset of
    that value in [encode_fields fs]. *)
Fixpoint locate (t : Z) (fs : list (Z * field_value))
    : option (Z * field_value) :=
  match fs with
  | [] => None
  | f :: fs' =>
      if fst f =? t then Some (Z.of_nat (List.length (encode_key f)), snd f)
      else match locate t fs' with
           | Some (off, v) =>
               Some (Z.of_nat (List.length (encode_field f)) + off, v)
           | None => None
           end
  end.

(** ** Basic facts: integer types and bytes *)

(** Equalities between bitwise expressions, bit by bit. *)
Ltac neg_bits :=
  repeat match goal with
         | |- context [Z.testbit ?a ?n] => rewrite (Z.testbit_neg_r a n) by lia
         end.
Ltac bits := Z.bitblast; neg_bits; try btauto.

Lemma pow2_half (w : Z) : 0 < w -> 2 ^ w = 2 * 2 ^ (w - 1).
Proof.
  intros Hw. rewrite <- Z.pow_succ_r by lia. f_equal. lia.
Qed.

Lemma wrap_unsigned (T : int_type) (z : Z) :
  is_signed T = false -> wrap T z = z mod 2 ^ bits T.
Proof. intros H. unfold wrap. now rewrite H. Qed.

Lemma wrap_uint32 (z : Z) : wrap uint32_t z = z mod 2 ^ 32.
Proof. reflexivity. Qed.

Lemma wrap_uint32_range (z : Z) : 0 <= wrap uint32_t z < 2 ^ 32.
Proof. rewrite wrap_uint32. apply Z.mod_pos_bound. lia. Qed.

(** Whether [char] is signed does not matter to the masks of [varint] and
    [boolean]: a byte above 127 read as the negative [b - 256] gives the
    same continuation bit, the same payload and the same test against 0. *)
Lemma char_mask_signed (b : byte) :
  Z.land (byte.unsigned b - 256) 0x80 = Z.land (byte.unsigned b) 0x80 /\
  Z.land (byte.unsigned b - 256) 0x7F = Z.land (byte.unsigned b) 0x7F /\
  (128 <= byte.unsigned b -> byte.unsigned b - 256 <> 0).
Proof.
  destruct b; vm_compute; intuition discriminate.
Qed.

(** The bitwise definition of [varint_value] is the positional sum. *)
Lemma varint_value_cons (b : byte) (bs : list byte) :
  varint_value (b :: bs) = group b + 128 * varint_value bs.
Proof.
  cbn [varint_value]. rewrite Z.or_to_plus.
  - rewrite Z.shiftl_mul_pow2 by lia. change (2 ^ 7) with 128. lia.
  - unfold group. change 0x7F with (Z.ones 7).
    bits.
Qed.

(** ** Basic facts: the monad *)

Lemma prepend_reads_nil {A} (x : outcome A * pbf * list Z) :
  prepend_reads [] x = x.
Proof. now destruct x as [[o c] r]. Qed.

Lemma prepend_reads_app {A} (r1 r2 : list Z) (x : outcome A * pbf * list Z) :
  prepend_reads r1 (prepend_reads r2 x) = prepend_reads (r1 ++ r2) x.
Proof.
  destruct x as [[o c] r]. unfold prepend_reads; cbn. now rewrite app_assoc.
Qed.

Lemma bind_ok {A B} (m : M A) (k : A -> M B) c a c1 r1 :
  m c = (Ok a, c1, r1) -> bind m k c = prepend_reads r1 (k a c1).
Proof.
  intros E. unfold bind. rewrite E. now destruct (k a c1) as [[o c2] r2].
Qed.

Lemma bind_fail {A B} (m : M A) (k : A -> M B) c f c1 r1 :
  m c = (Fail f, c1, r1) -> bind m k c = (Fail f, c1, r1).
Proof. intros E. unfold bind. now rewrite E. Qed.

Lemma bind_get {A} (k : pbf -> M A) c : bind get k c = k c c.
Proof.
  rewrite (bind_ok get k c c c []) by reflexivity. apply prepend_reads_nil.
Qed.

Lemma assert_off (cond : M bool) msg c :
  assert_ false cond msg c = (Ok tt, c, []).
Proof. reflexivity. Qed.

Lemma assert_pure debug (f : pbf -> bool) msg c :
  assert_ debug (pure_cond f) msg c =
  if debug && negb (f c) then (Fail (AssertionFailed msg), c, [])
  else (Ok tt, c, []).
Proof.
  destruct debug; [|reflexivity]. unfold assert_, pure_cond.
  rewrite (bind_ok _ _ c (f c) c []).
  - now destruct (f c).
  - now rewrite bind_get.
Qed.

Lemma assert_pure_holds debug (f : pbf -> bool) msg c :
  debug = false \/ f c = true ->
  assert_ debug (pure_cond f) msg c = (Ok tt, c, []).
Proof.
  intros [-> | H]; rewrite assert_pure; [reflexivity|].
  rewrite H. now rewrite andb_false_r.
Qed.

(** ** Bounds: no function moves past [end] or loads outside the range *)

Lemma bounded_here {A} lo (o : outcome A) c :
  data c <= end_ c -> bounded lo c (o, c, []).
Proof.
  intros H. unfold bounded; cbn. repeat split; try lia. constructor.
Qed.

Lemma in_bounds_here {A} (o : outcome A) c :
  data c <= end_ c -> in_bounds c (o, c, []).
Proof. apply bounded_here. Qed.

Lemma bounded_weaken {A} lo lo' c (x : outcome A * pbf * list Z) :
  lo' <= lo -> bounded lo c x -> bounded lo' c x.
Proof.
  intros Hlo (He & Hd & Hr). repeat split; try assumption; try lia.
  eapply Forall_impl; [|exact Hr]. cbv beta. intros; lia.
Qed.

Lemma bounded_prepend {A} lo c c1 r1 (x : outcome A * pbf * list Z) :
  end_ c1 = end_ c -> data c <= data c1 ->
  Forall (fun a => lo <= a < end_ c) r1 ->
  bounded lo c1 x -> bounded lo c (prepend_reads r1 x).
Proof.
  intros He Hd Hr (He2 & Hd2 & Hr2).
  unfold bounded, prepend_reads; cbn [cursor_of reads_of fst snd].
  repeat split; try lia.
  apply Forall_app; split; [assumption|].
  eapply Forall_impl; [|exact Hr2]. cbv beta. intros; lia.
Qed.

(** Sequencing: the continuation starts where the first part stopped. *)
Lemma bounded_bind {A B} lo (m : M A) (k : A -> M B) c :
  bounded lo c (m c) ->
  (forall a c1 r1, m c = (Ok a, c1, r1) ->
     data c <= data c1 <= end_ c1 -> end_ c1 = end_ c ->
     bounded lo c1 (k a c1)) ->
  bounded lo c (bind m k c).
Proof.
  intros Hm Hk. destruct (m c) as [[[a|f] c1] r1] eqn:E.
  - rewrite (bind_ok _ _ _ _ _ _ E).
    destruct Hm as (He & Hd & Hr). cbn [cursor_of reads_of fst snd] in *.
    apply bounded_prepend with (c1 := c1); try assumption; try lia.
    apply Hk with (r1 := r1); [reflexivity | lia | assumption].
  - rewrite (bind_fail _ _ _ _ _ _ E). exact Hm.
Qed.

Lemma in_bounds_bind {A B} (m : M A) (k : A -> M B) c :
  in_bounds c (m c) ->
  (forall a c1 r1, m c = (Ok a, c1, r1) ->
     data c1 <= end_ c1 -> in_bounds c1 (k a c1)) ->
  in_bounds c (bind m k c).
Proof.
  intros Hm Hk. apply bounded_bind; [exact Hm|].
  intros a c1 r1 E Hd He.
  apply bounded_weaken with (lo := data c1); [lia|].
  apply (Hk a c1 r1 E). lia.
Qed.

Lemma assert_pure_in_bounds debug f msg c :
  data c <= end_ c -> in_bounds c (assert_ debug (pure_cond f) msg c).
Proof.
  intros H. rewrite assert_pure.
  destruct (debug && negb (f c)); now apply in_bounds_here.
Qed.

Lemma assert_pure_cursor debug f msg c a c1 r1 :
  assert_ debug (pure_cond f) msg c = (Ok a, c1, r1) -> c1 = c /\ r1 = [].
Proof.
  rewrite assert_pure. destruct (debug && negb (f c)); [discriminate|].
  intros E; inversion E; auto.
Qed.

Lemma skipBytes_eq bytes c :
  skipBytes bytes c =
  if data c + bytes >? end_ c
  then (Fail (Throw end_of_buffer_exception), c, [])
  else (Ok tt, advance c bytes, []).
Proof.
  unfold skipBytes. rewrite bind_get. now destruct (data c + bytes >? end_ c).
Qed.

Lemma skipBytes_in_bounds bytes c :
  0 <= bytes -> data c <= end_ c -> in_bounds c (skipBytes bytes c).
Proof.
  intros Hb Hc. rewrite skipBytes_eq.
  destruct (data c + bytes >? end_ c) eqn:E; [now apply in_bounds_here|].
  rewrite Z.gtb_ltb in E. apply Z.ltb_ge in E.
  unfold in_bounds, bounded; cbn. repeat split; try lia. constructor.
Qed.

(** ** The loop of [varint] *)

Lemma advance_0 c : advance c 0 = c.
Proof. destruct c. unfold advance; cbn. now rewrite Z.add_0_r. Qed.

Lemma advance_advance c n m : advance (advance c n) m = advance c (n + m).
Proof. unfold advance; cbn. now rewrite Z.add_assoc. Qed.

Lemma addrs_range p n q :
  q <= p -> Forall (fun a => q <= a < p + Z.of_nat n) (addrs p n).
Proof.
  revert p. induction n as [|n IH]; intros p Hq; cbn [addrs]; constructor.
  - lia.
  - eapply Forall_impl; [|apply (IH (p + 1)); lia]. cbv beta. intros; lia.
Qed.

Lemma varint_loop_exit overshift mem T fuel bitpos b r c :
  (bitpos <? 70) && continues b = false ->
  varint_loop overshift mem T fuel bitpos b r c = (Ok (bitpos, b, r), c, []).
Proof.
  unfold continues. intros H. destruct fuel; cbn [varint_loop]; now rewrite H.
Qed.

Lemma varint_loop_step overshift mem T fuel bitpos b r c :
  (bitpos <? 70) && continues b = true ->
  varint_loop overshift mem T (S fuel) bitpos b r c =
  if data c >=? end_ c
  then (Fail (Throw unterminated_varint_exception), c, [])
  else prepend_reads [data c]
         (varint_loop overshift mem T fuel (bitpos + 7) (mem (data c))
            (add_group overshift T bitpos r (mem (data c)))
            (advance c 1)).
Proof.
  unfold continues. intros H. cbn [varint_loop]. rewrite H.
  rewrite bind_get. destruct (data c >=? end_ c); [reflexivity|].
  rewrite (bind_ok _ _ c (mem (data c)) c [data c]) by reflexivity.
  f_equal.
  rewrite (bind_ok _ _ c tt (advance c 1) []) by reflexivity.
  apply prepend_reads_nil.
Qed.

Lemma varint_loop_out_of_fuel overshift mem T bitpos b r c :
  (bitpos <? 70) && continues b = true ->
  varint_loop overshift mem T 0 bitpos b r c = (Fail OutOfFuel, c, []).
Proof. unfold continues. intros H. cbn [varint_loop]. now rewrite H. Qed.

(** A run of the loop loads consecutive bytes from [data] on, at most one
    per unit of fuel, and stops at [end] at the latest. *)
Lemma varint_loop_shape overshift mem T fuel : forall bitpos b r c,
  data c <= end_ c ->
  exists n : nat,
    (n <= fuel)%nat /\ data c + Z.of_nat n <= end_ c /\
    cursor_of (varint_loop overshift mem T fuel bitpos b r c) =
      advance c (Z.of_nat n) /\
    reads_of (varint_loop overshift mem T fuel bitpos b r c) = addrs (data c) n.
Proof.
  induction fuel as [|fuel IH]; intros bitpos b r c Hc;
    destruct ((bitpos <? 70) && continues b) eqn:Hcond.
  - rewrite varint_loop_out_of_fuel by assumption.
    exists 0%nat. rewrite advance_0. cbn. repeat split; lia.
  - rewrite varint_loop_exit by assumption.
    exists 0%nat. rewrite advance_0. cbn. repeat split; lia.
  - rewrite varint_loop_step by assumption.
    destruct (data c >=? end_ c) eqn:E.
    + exists 0%nat. rewrite advance_0. cbn. repeat split; lia.
    + rewrite Z.geb_leb in E. apply Z.leb_gt in E.
      destruct (IH (bitpos + 7) (mem (data c))
                  (add_group overshift T bitpos r (mem (data c)))
                  (advance c 1)) as (n & Hn & Hle & Hcur & Hreads).
      { cbn. lia. }
      exists (S n). cbn [data end_ advance] in Hle.
      unfold prepend_reads; cbn [cursor_of reads_of fst snd].
      fold (cursor_of (varint_loop overshift mem T fuel (bitpos + 7) (mem (data c))
                  (add_group overshift T bitpos r (mem (data c)))
                  (advance c 1))).
      rewrite Hcur. 
      fold (reads_of (varint_loop overshift mem T fuel (bitpos + 7) (mem (data c))
                  (add_group overshift T bitpos r (mem (data c)))
                  (advance c 1))).
      rewrite Hreads.
      rewrite advance_advance. cbn [addrs app data advance].
      repeat split; try lia. f_equal; lia.
  - rewrite varint_loop_exit by assumption.
    exists 0%nat. rewrite advance_0. cbn. repeat split; lia.
Qed.

Lemma varint_loop_in_bounds overshift mem T fuel bitpos b r c :
  data c <= end_ c -> in_bounds c (varint_loop overshift mem T fuel bitpos b r c).
Proof.
  intros Hc.
  destruct (varint_loop_shape overshift mem T fuel bitpos b r c Hc)
    as (n & _ & Hle & Hcur & Hreads).
  unfold in_bounds, bounded. rewrite Hcur, Hreads. cbn [end_ data advance].
  repeat split; try lia.
  eapply Forall_impl; [|apply (addrs_range (data c) n (data c)); lia].
  cbv beta. intros; lia.
Qed.

(** Fuel beyond what brings [bitpos] to 70 changes nothing: the loop is
    bounded by its own test. *)
Lemma varint_loop_fuel overshift mem T fuel : forall k bitpos b r c,
  70 <= bitpos + 7 * Z.of_nat fuel ->
  varint_loop overshift mem T (fuel + k) bitpos b r c =
  varint_loop overshift mem T fuel bitpos b r c.
Proof.
  induction fuel as [|fuel IH]; intros k bitpos b r c Hb.
  - assert (Hcond : (bitpos <? 70) && continues b = false).
    { apply andb_false_iff. left. apply Z.ltb_ge. lia. }
    now rewrite !varint_loop_exit by assumption.
  - destruct ((bitpos <? 70) && continues b) eqn:Hcond.
    + cbn [Nat.add]. rewrite !varint_loop_step by assumption.
      destruct (data c >=? end_ c); [reflexivity|].
      rewrite IH by lia. reflexivity.
    + now rewrite !varint_loop_exit by assumption.
Qed.

Lemma varint_loop_total overshift mem T fuel : forall bitpos b r c,
  70 <= bitpos + 7 * Z.of_nat fuel ->
  outcome_of (varint_loop overshift mem T fuel bitpos b r c) <> Fail OutOfFuel.
Proof.
  induction fuel as [|fuel IH]; intros bitpos b r c Hb.
  - rewrite varint_loop_exit; [discriminate|].
    apply andb_false_iff. left. apply Z.ltb_ge. lia.
  - destruct ((bitpos <? 70) && continues b) eqn:Hcond.
    + rewrite varint_loop_step by assumption.
      destruct (data c >=? end_ c); [discriminate|].
      unfold prepend_reads; cbn [outcome_of fst]. apply IH. lia.
    + rewrite varint_loop_exit by assumption. discriminate.
Qed.

(** The loop on a complete varint: it consumes exactly the bytes of the
    varint and leaves the accumulator of [accumulate]. *)
Lemma varint_loop_decode overshift mem T bs : forall fuel bitpos b r c,
  is_varint bs = true ->
  continues b = true ->
  stored mem (data c) bs ->
  data c + Z.of_nat (List.length bs) <= end_ c ->
  bitpos + 7 * Z.of_nat (List.length bs) <= 70 ->
  continues (last_of b bs) = false /\
  varint_loop overshift mem T (List.length bs + fuel) bitpos b r c =
    (Ok (bitpos + 7 * Z.of_nat (List.length bs), last_of b bs,
         accumulate overshift T bitpos r bs),
     advance c (Z.of_nat (List.length bs)),
     addrs (data c) (List.length bs)).
Proof.
  induction bs as [|x bs IH]; intros fuel bitpos b r c Hv Hb Hs Hroom Hpos.
  - discriminate.
  - cbn [List.length] in *. destruct Hs as [Hx Hs].
    assert (Hcond : (bitpos <? 70) && continues b = true).
    { rewrite Hb, andb_true_r. apply Z.ltb_lt. lia. }
    cbn [Nat.add]. rewrite varint_loop_step by assumption.
    assert (E : (data c >=? end_ c) = false).
    { rewrite Z.geb_leb. apply Z.leb_gt. lia. }
    rewrite E, Hx. cbn [last_of accumulate addrs].
    destruct bs as [|y bs].
    + cbn [is_varint] in Hv. apply negb_true_iff in Hv.
      split; [exact Hv|].
      rewrite varint_loop_exit by (rewrite Hv; apply andb_false_r).
      cbn [List.length last_of accumulate addrs].
      unfold prepend_reads; cbn [outcome_of cursor_of reads_of fst snd app].
      change (Z.of_nat 1) with 1. now rewrite Z.mul_1_r.
    + cbn [is_varint] in Hv. apply andb_true_iff in Hv. destruct Hv as [Hcx Hv].
      destruct (IH fuel (bitpos + 7) x
                  (add_group overshift T bitpos r x)
                  (advance c 1) Hv Hcx Hs) as [Hlast Hrun].
      { cbn [data end_ advance]. lia. }
      { lia. }
      split; [exact Hlast|].
      rewrite Hrun. unfold prepend_reads; cbn [outcome_of cursor_of reads_of fst snd].
      rewrite advance_advance. cbn [data advance app].
      cbn [List.length].
      replace (bitpos + 7 + 7 * Z.of_nat (S (List.length bs)))
        with (bitpos + 7 * Z.of_nat (S (S (List.length bs)))) by lia.
      replace (1 + Z.of_nat (S (List.length bs)))
        with (Z.of_nat (S (S (List.length bs)))) by lia.
      reflexivity.
Qed.

(** The loop on a buffer that ends while every byte still asks for a
    continuation. *)
Lemma varint_loop_unterminated overshift mem T n : forall fuel bitpos b r c,
  Z.of_nat n = end_ c - data c ->
  (forall a, data c <= a < end_ c -> continues (mem a) = true) ->
  continues b = true ->
  bitpos + 7 * Z.of_nat n < 70 ->
  (n < fuel)%nat ->
  varint_loop overshift mem T fuel bitpos b r c =
    (Fail (Throw unterminated_varint_exception),
     advance c (Z.of_nat n), addrs (data c) n).
Proof.
  induction n as [|n IH]; intros fuel bitpos b r c Hn Hall Hb Hpos Hfuel;
    (destruct fuel as [|fuel]; [lia|]);
    (assert (Hcond : (bitpos <? 70) && continues b = true)
      by (rewrite Hb, andb_true_r; apply Z.ltb_lt; lia));
    rewrite varint_loop_step by assumption.
  - assert (E : (data c >=? end_ c) = true).
    { rewrite Z.geb_leb. apply Z.leb_le. lia. }
    rewrite E. now rewrite advance_0.
  - assert (E : (data c >=? end_ c) = false).
    { rewrite Z.geb_leb. apply Z.leb_gt. lia. }
    rewrite E. rewrite IH.
    + unfold prepend_reads; cbn [outcome_of cursor_of reads_of fst snd].
      rewrite advance_advance. cbn [data advance app addrs].
      do 3 f_equal. lia.
    + cbn [data end_ advance]. lia.
    + cbn [data end_ advance]. intros a Ha. apply Hall. lia.
    + apply Hall. lia.
    + lia.
    + lia.
Qed.

(** The loop on [n] continuation bytes that bring [bitpos] to 70. *)
Lemma varint_loop_too_long overshift mem T n : forall fuel bitpos b r c,
  (forall a, data c <= a < data c + Z.of_nat n -> continues (mem a) = true) ->
  data c + Z.of_nat n <= end_ c ->
  continues b = true ->
  bitpos + 7 * Z.of_nat n = 70 ->
  (n <= fuel)%nat ->
  exists b' r',
    continues b' = true /\
    varint_loop overshift mem T fuel bitpos b r c =
      (Ok (70, b', r'), advance c (Z.of_nat n), addrs (data c) n).
Proof.
  induction n as [|n IH]; intros fuel bitpos b r c Hall Hroom Hb Hpos Hfuel.
  - exists b, r. split; [assumption|].
    assert (bitpos = 70) by lia. subst bitpos.
    rewrite varint_loop_exit by reflexivity.
    now rewrite advance_0.
  - destruct fuel as [|fuel]; [lia|].
    assert (Hcond : (bitpos <? 70) && continues b = true)
      by (rewrite Hb, andb_true_r; apply Z.ltb_lt; lia).
    rewrite varint_loop_step by assumption.
    assert (E : (data c >=? end_ c) = false).
    { rewrite Z.geb_leb. apply Z.leb_gt. lia. }
    rewrite E.
    destruct (IH fuel (bitpos + 7) (mem (data c))
                (add_group overshift T bitpos r (mem (data c)))
                (advance c 1)) as (b' & r' & Hb' & Hrun).
    + cbn [data advance]. intros a Ha. apply Hall. lia.
    + cbn [data end_ advance]. lia.
    + apply Hall. lia.
    + lia.
    + lia.
    + exists b', r'. split; [assumption|]. rewrite Hrun.
      unfold prepend_reads; cbn [outcome_of cursor_of reads_of fst snd].
      rewrite advance_advance. cbn [data advance app addrs].
      do 3 f_equal. lia.
Qed.

(** ** [varint] *)

Lemma wire_type_in_varint debug c :
  wire_type_in debug c [0; 2] ->
  debug = false \/ is_wire_type c 0 || is_wire_type c 2 = true.
Proof.
  intros [H | H]; [now left | right]. unfold is_wire_type.
  cbn [In] in H. destruct H as [H | [H | []]]; rewrite <- H; reflexivity.
Qed.

Lemma varint_eq debug overshift mem T c :
  wire_type_in debug c [0; 2] ->
  varint debug overshift mem T c =
  match varint_loop overshift mem T 10 0 Byte.x80 0 c with
  | (Ok (bitpos, b, result), c1, r1) =>
      if (bitpos =? 70) && continues b
      then (Fail (Throw varint_too_long_exception), c1, r1)
      else (Ok result, c1, r1)
  | (Fail f, c1, r1) => (Fail f, c1, r1)
  end.
Proof.
  intros Hw. unfold varint.
  rewrite (bind_ok _ _ c tt c []).
  2:{ apply assert_pure_holds. now apply wire_type_in_varint. }
  rewrite prepend_reads_nil.
  destruct (varint_loop overshift mem T 10 0 Byte.x80 0 c)
    as [[[[[bitpos b] result]|f] c1] r1] eqn:E.
  - rewrite (bind_ok _ _ _ _ _ _ E). unfold continues.
    destruct ((bitpos =? 70) && _); unfold prepend_reads; cbn; now rewrite app_nil_r.
  - now rewrite (bind_fail _ _ _ _ _ _ E).
Qed.

(** Either assertions are on and the one of [varint] fails, or its
    precondition holds. *)
Lemma varint_precondition_cases debug c :
  (debug = true /\ is_wire_type c 0 || is_wire_type c 2 = false) \/
  wire_type_in debug c [0; 2].
Proof.
  destruct debug; [|right; now left].
  destruct (is_wire_type c 0 || is_wire_type c 2) eqn:E; [right | now left].
  right. apply orb_true_iff in E. unfold is_wire_type in E. cbn [In].
  destruct E as [E | E]; apply Z.eqb_eq in E; auto.
Qed.

(** When the assertion of [varint] fails, nothing else happens. *)
Lemma varint_assert_fails overshift mem T c :
  is_wire_type c 0 || is_wire_type c 2 = false ->
  varint true overshift mem T c = (Fail (AssertionFailed "not a varint"), c, []).
Proof.
  intros H. unfold varint. apply bind_fail. rewrite assert_pure. now rewrite H.
Qed.

Lemma varint_shape debug overshift mem T c :
  data c <= end_ c ->
  exists n : nat,
    (n <= 10)%nat /\ data c + Z.of_nat n <= end_ c /\
    cursor_of (varint debug overshift mem T c) = advance c (Z.of_nat n) /\
    reads_of (varint debug overshift mem T c) = addrs (data c) n.
Proof.
  intros Hc.
  destruct (varint_precondition_cases debug c) as [[-> Ha] | Hw].
  - rewrite varint_assert_fails by assumption.
    exists 0%nat. rewrite advance_0. cbn. repeat split; lia.
  - rewrite varint_eq by assumption.
    destruct (varint_loop_shape overshift mem T 10 0 Byte.x80 0 c Hc)
      as (n & Hn & Hle & Hcur & Hreads).
    exists n.
    destruct (varint_loop overshift mem T 10 0 Byte.x80 0 c)
      as [[[[[bitpos b] result]|f] c1] r1];
      cbn [cursor_of reads_of fst snd] in *;
      [destruct ((bitpos =? 70) && continues b)|];
      cbn [cursor_of reads_of fst snd]; auto.
Qed.

Lemma varint_in_bounds debug overshift mem T c :
  data c <= end_ c -> in_bounds c (varint debug overshift mem T c).
Proof.
  intros Hc.
  destruct (varint_shape debug overshift mem T c Hc) as (n & _ & Hle & Hcur & Hreads).
  unfold in_bounds, bounded. rewrite Hcur, Hreads. cbn [end_ data advance].
  repeat split; try lia.
  eapply Forall_impl; [|apply (addrs_range (data c) n (data c)); lia].
  cbv beta. intros; lia.
Qed.

(** [varint] always comes back: its loop is bounded by [bitpos < 70]. *)
Lemma varint_total debug overshift mem T c :
  outcome_of (varint debug overshift mem T c) <> Fail OutOfFuel.
Proof.
  unfold varint.
  destruct (assert_ debug (pure_cond (fun c0 => is_wire_type c0 0 || is_wire_type c0 2))
              "not a varint" c) as [[[[]|f] c0] r0] eqn:Ea.
  - rewrite (bind_ok _ _ _ _ _ _ Ea). unfold prepend_reads; cbn [outcome_of fst].
    pose proof (varint_loop_total overshift mem T 10 0 Byte.x80 0 c0) as Ht.
    destruct (varint_loop overshift mem T 10 0 Byte.x80 0 c0)
      as [[[[[bitpos b] result]|f] c1] r1] eqn:E.
    + rewrite (bind_ok _ _ _ _ _ _ E).
      destruct ((bitpos =? 70) && _); cbn; discriminate.
    + rewrite (bind_fail _ _ _ _ _ _ E). cbn [outcome_of fst] in *.
      intros Hf. apply Ht; [lia|]. congruence.
  - rewrite (bind_fail _ _ _ _ _ _ Ea). cbn [outcome_of fst].
    rewrite assert_pure in Ea. destruct (debug && _); inversion Ea. discriminate.
Qed.

(** *** The accumulator

    Bit [i] of a value converted to [T]: the bit of the value below the
    width; above it, nothing for an unsigned [T] and the sign bit for a
    signed one. *)
Lemma wrap_signed_range T z :
  is_signed T = true -> 0 < bits T ->
  - 2 ^ (bits T - 1) <= wrap T z < 2 ^ (bits T - 1).
Proof.
  intros Hs Hw. unfold wrap. rewrite Hs. pose proof (pow2_half (bits T) Hw).
  pose proof (Z.mod_pos_bound (z + 2 ^ (bits T - 1)) (2 ^ bits T) ltac:(lia)). lia.
Qed.

Lemma wrap_congruent T z : 0 < bits T -> wrap T z mod 2 ^ bits T = z mod 2 ^ bits T.
Proof.
  intros Hw. unfold wrap. destruct (is_signed T).
  - pose proof (pow2_half (bits T) Hw).
    rewrite Zminus_mod_idemp_l.
    f_equal. lia.
  - apply Z.mod_mod. lia.
Qed.

Lemma wrap_testbit_low T z i :
  0 < bits T -> i < bits T -> Z.testbit (wrap T z) i = Z.testbit z i.
Proof.
  intros Hw Hi. destruct (Z.lt_ge_cases i 0) as [Hn | Hn].
  - now rewrite !Z.testbit_neg_r by lia.
  - rewrite <- (Z.mod_pow2_bits_low (wrap T z) (bits T) i) by lia.
    rewrite wrap_congruent by lia. apply Z.mod_pow2_bits_low. lia.
Qed.

Lemma wrap_testbit T z i :
  2 <= bits T -> 0 <= i ->
  Z.testbit (wrap T z) i =
  if is_signed T
  then Z.testbit z (if i <? bits T then i else bits T - 1)
  else (i <? bits T) && Z.testbit z i.
Proof.
  intros Hw Hi. destruct (is_signed T) eqn:Hs.
  - destruct (i <? bits T) eqn:E.
    + apply Z.ltb_lt in E. apply wrap_testbit_low; lia.
    + apply Z.ltb_ge in E.
      rewrite (testbit_above_signed (bits T - 1)); try lia.
      * apply wrap_testbit_low; lia.
      * apply wrap_signed_range; [assumption | lia].
  - rewrite wrap_unsigned by assumption. apply Z.testbit_mod_pow2. lia.
Qed.

Lemma wrap_lor T a b :
  2 <= bits T -> Z.lor (wrap T a) (wrap T b) = wrap T (Z.lor a b).
Proof.
  intros Hw. apply Z.bits_inj'. intros i Hi.
  rewrite Z.lor_spec, !wrap_testbit by assumption.
  destruct (is_signed T).
  - now rewrite Z.lor_spec.
  - rewrite Z.lor_spec. btauto.
Qed.

Lemma wrap_payload T b :
  7 <= bits T -> Z.land (wrap T b) 0x7F = Z.land b 0x7F.
Proof.
  intros Hw. apply Z.bits_inj'. intros i Hi.
  rewrite !Z.land_spec. change 0x7F with (Z.ones 7).
  rewrite Z.testbit_ones_nonneg by lia.
  destruct (i <? 7) eqn:E; [|now rewrite !andb_false_r].
  apply Z.ltb_lt in E. rewrite wrap_testbit_low by lia. reflexivity.
Qed.

Lemma shl_in_range overshift T x n :
  n < bits T -> shl overshift T x n = wrap T (Z.shiftl x n).
Proof.
  intros H. unfold shl. apply Z.ltb_lt in H. now rewrite H.
Qed.

Lemma shl_wrapped overshift T x n : exists y, shl overshift T x n = wrap T y.
Proof. unfold shl. destruct (n <? bits T); eauto. Qed.

Lemma wrap_0 T : 2 <= bits T -> wrap T 0 = 0.
Proof.
  intros Hw. apply Z.bits_inj'. intros i Hi. rewrite wrap_testbit by lia.
  rewrite !Z.testbit_0_l.
  destruct (is_signed T); [reflexivity | now rewrite andb_false_r].
Qed.

(** Shifted by the width or more, a value converted to [T] is 0. *)
Lemma wrap_shiftl_out T x n :
  2 <= bits T -> bits T <= n -> wrap T (Z.shiftl x n) = 0.
Proof.
  intros Hw Hn. apply Z.bits_inj'. intros i Hi. rewrite wrap_testbit by lia.
  rewrite Z.testbit_0_l. destruct (is_signed T).
  - destruct (i <? bits T) eqn:E.
    + apply Z.ltb_lt in E. rewrite Z.shiftl_spec by lia.
      apply Z.testbit_neg_r. lia.
    + rewrite Z.shiftl_spec by lia. apply Z.testbit_neg_r. lia.
  - destruct (i <? bits T) eqn:E; [|reflexivity].
    apply Z.ltb_lt in E. rewrite Z.shiftl_spec by lia.
    cbn [andb]. apply Z.testbit_neg_r. lia.
Qed.

Lemma shl_shifts_out overshift T x n :
  2 <= bits T -> shifts_out overshift T ->
  shl overshift T x n = wrap T (Z.shiftl x n).
Proof.
  intros Hw Ho. unfold shl. destruct (n <? bits T) eqn:E; [reflexivity|].
  apply Z.ltb_ge in E. rewrite Ho by assumption.
  now rewrite wrap_shiftl_out.
Qed.

Lemma overshift_zero_shifts_out T : 2 <= bits T -> shifts_out overshift_zero T.
Proof. intros Hw x n _. now apply wrap_0. Qed.

(** As long as every shift count is below the width of [T], or where the
    platform shifts the bits out, the accumulator holds the value of the
    bytes read so far, shifted into place and converted to [T]. *)
Lemma accumulate_wrap overshift T :
  7 <= bits T ->
  forall bs bitpos r, 0 <= bitpos ->
  bitpos + 7 * Z.of_nat (List.length bs) < bits T + 7 \/ shifts_out overshift T ->
  accumulate overshift T bitpos r bs =
  Z.lor r (wrap T (Z.shiftl (varint_value bs) bitpos)).
Proof.
  intros Hw. induction bs as [|b bs IH]; intros bitpos r Hb Hlen.
  - cbn [accumulate varint_value]. rewrite Z.shiftl_0_l, wrap_0 by lia.
    now rewrite Z.lor_0_r.
  - cbn [List.length] in Hlen.
    cbn [accumulate varint_value].
    rewrite IH by (lia || (destruct Hlen; [left; lia | now right])).
    unfold add_group.
    replace (shl overshift T (Z.land (wrap T (byte.unsigned b)) 0x7F) bitpos)
      with (wrap T (Z.shiftl (Z.land (wrap T (byte.unsigned b)) 0x7F) bitpos))
      by (destruct Hlen; [rewrite shl_in_range by lia; reflexivity
                         | rewrite shl_shifts_out by (lia || assumption);
                           reflexivity]).
    rewrite <- Z.lor_assoc. f_equal.
    rewrite wrap_payload by lia. rewrite wrap_lor by lia. f_equal.
    unfold group. rewrite Z.shiftl_lor, Z.shiftl_shiftl by lia.
    do 2 f_equal. lia.
Qed.

Lemma accumulate_value overshift T bs :
  7 <= bits T ->
  7 * Z.of_nat (List.length bs) < bits T + 7 \/ shifts_out overshift T ->
  accumulate overshift T 0 0 bs = wrap T (varint_value bs).
Proof.
  intros Hw Hlen. rewrite accumulate_wrap by (lia || assumption).
  now rewrite Z.lor_0_l, Z.shiftl_0_r.
Qed.

(** [varint] on a complete varint of at most ten bytes. *)
Lemma varint_decode debug overshift mem T bs c :
  wire_type_in debug c [0; 2] ->
  is_varint bs = true -> (List.length bs <= 10)%nat ->
  stored mem (data c) bs ->
  data c + Z.of_nat (List.length bs) <= end_ c ->
  varint debug overshift mem T c =
    (Ok (accumulate overshift T 0 0 bs), advance c (Z.of_nat (List.length bs)),
     addrs (data c) (List.length bs)).
Proof.
  intros Hw Hv Hlen Hs Hroom. rewrite varint_eq by assumption.
  destruct (varint_loop_decode overshift mem T bs (10 - List.length bs) 0 Byte.x80 0 c)
    as [Hlast Hrun]; try assumption; try reflexivity; try lia.
  replace (List.length bs + (10 - List.length bs))%nat with 10%nat in Hrun by lia.
  rewrite Hrun, Hlast. now rewrite andb_false_r.
Qed.

Lemma stored_mem_of_aux (l : list byte) : forall pre,
  stored (mem_of (pre ++ l)) (Z.of_nat (List.length pre)) l.
Proof.
  induction l as [|b l IH]; intros pre; cbn [stored]; [exact I|]. split.
  - unfold mem_of.
    destruct (Z.of_nat (List.length pre) <? 0) eqn:E;
      [apply Z.ltb_lt in E; lia|].
    rewrite Nat2Z.id. rewrite app_nth2 by lia.
    now rewrite Nat.sub_diag.
  - specialize (IH (pre ++ [b])).
    rewrite <- app_assoc in IH. cbn [app] in IH.
    rewrite length_app in IH. cbn [List.length] in IH.
    replace (Z.of_nat (List.length pre) + 1)
      with (Z.of_nat (List.length pre + 1)) by lia.
    exact IH.
Qed.

(** A buffer lies in the memory made of it, from address 0 on. *)
Lemma stored_mem_of (l : list byte) : stored (mem_of l) 0 l.
Proof. exact (stored_mem_of_aux l []). Qed.

(** ** The encoders of the round trip *)

Lemma byte_of_small (n : Z) : 0 <= n < 256 -> byte.unsigned (byte.of_Z n) = n.
Proof.
  intros H. rewrite byte.unsigned_of_Z. unfold byte.wrap.
  apply Z.mod_small. lia.
Qed.

Lemma continues_low (n : Z) : 0 <= n < 128 -> continues (byte.of_Z n) = false.
Proof.
  intros H. unfold continues. rewrite byte_of_small by lia.
  apply negb_false_iff, Z.eqb_eq.
  change 0x80 with (Z.shiftl 1 7).
  assert (Hn : n = Z.land n (Z.ones 7)).
  { rewrite Z.land_ones by lia. symmetry. apply Z.mod_small. lia. }
  rewrite Hn. bits.
Qed.

Lemma group_low (n : Z) : 0 <= n < 128 -> group (byte.of_Z n) = n.
Proof.
  intros H. unfold group. rewrite byte_of_small by lia.
  change 0x7F with (Z.ones 7). rewrite Z.land_ones by lia.
  apply Z.mod_small. lia.
Qed.

Lemma high_byte_range (n : Z) : 0 <= Z.lor (Z.land n 0x7F) 0x80 < 256.
Proof.
  assert (H : Z.lor (Z.land n 0x7F) 0x80 = Z.land n 0x7F + 0x80).
  { apply Z.or_to_plus. change 0x7F with (Z.ones 7).
    change 0x80 with (Z.shiftl 1 7). bits. }
  rewrite H. change 0x7F with (Z.ones 7). rewrite Z.land_ones by lia.
  pose proof (Z.mod_pos_bound n (2 ^ 7) ltac:(lia)). lia.
Qed.

Lemma continues_high (n : Z) :
  continues (byte.of_Z (Z.lor (Z.land n 0x7F) 0x80)) = true.
Proof.
  unfold continues. rewrite byte_of_small by apply high_byte_range.
  apply negb_true_iff, Z.eqb_neq.
  rewrite Z.land_lor_distr_l. change (Z.land 0x80 0x80) with 0x80.
  intros H. apply Z.lor_eq_0_iff in H. destruct H as [_ H]. discriminate.
Qed.

Lemma group_high (n : Z) :
  group (byte.of_Z (Z.lor (Z.land n 0x7F) 0x80)) = Z.land n 0x7F.
Proof.
  unfold group. rewrite byte_of_small by apply high_byte_range.
  change 0x7F with (Z.ones 7). change 0x80 with (Z.shiftl 1 7). bits.
Qed.

(** [encode_varint] writes a complete varint of the value it is given,
    within its fuel. *)
Lemma encode_varint_correct (fuel : nat) : forall n,
  (0 < fuel)%nat -> 0 <= n < 2 ^ (7 * Z.of_nat fuel) ->
  is_varint (encode_varint fuel n) = true /\
  varint_value (encode_varint fuel n) = n /\
  (List.length (encode_varint fuel n) <= fuel)%nat /\
  (List.length (encode_varint fuel n) = 1%nat \/
   2 ^ (7 * (Z.of_nat (List.length (encode_varint fuel n)) - 1)) <= n).
Proof.
  induction fuel as [|fuel IH]; intros n Hf Hn; [lia|].
  cbn [encode_varint]. destruct (n <? 128) eqn:E.
  - apply Z.ltb_lt in E. cbn [is_varint varint_value List.length].
    rewrite continues_low, group_low by lia.
    rewrite Z.shiftl_0_l, Z.lor_0_r. repeat split; try lia; now left.
  - apply Z.ltb_ge in E.
    assert (Hfuel : (0 < fuel)%nat).
    { destruct fuel; [|lia]. change (2 ^ (7 * Z.of_nat 1)) with 128 in Hn. lia. }
    destruct (IH (Z.shiftr n 7) Hfuel) as (Hv & Hval & Hlen & Hmin).
    { rewrite Z.shiftr_div_pow2 by lia. split.
      - apply Z.div_pos; lia.
      - apply Z.div_lt_upper_bound; [lia|].
        rewrite <- Z.pow_add_r by lia.
        replace (7 + 7 * Z.of_nat fuel) with (7 * Z.of_nat (S fuel)) by lia.
        lia. }
    cbn [varint_value List.length]. rewrite Hval, group_high.
    repeat split.
    + cbn [is_varint].
      destruct (encode_varint fuel (Z.shiftr n 7)) as [|y l] eqn:El;
        [discriminate|].
      now rewrite continues_high, Hv.
    + change 0x7F with (Z.ones 7). bits.
    + lia.
    + right.
      replace (7 * (Z.of_nat (S (List.length (encode_varint fuel (Z.shiftr n 7)))) - 1))
        with (7 + 7 * (Z.of_nat (List.length (encode_varint fuel (Z.shiftr n 7))) - 1))
        by lia.
      destruct Hmin as [H1 | Hmin].
      * rewrite H1. replace (7 + 7 * (Z.of_nat 1 - 1)) with 7 by lia.
        change (2 ^ 7) with 128. exact E.
      * assert (Hpos : (1 <= List.length (encode_varint fuel (Z.shiftr n 7)))%nat)
          by (destruct (encode_varint fuel (Z.shiftr n 7));
              [discriminate | cbn [List.length]; lia]).
        rewrite Z.pow_add_r by lia.
        rewrite !Z.shiftr_div_pow2 in Hmin by lia.
        rewrite !Z.shiftr_div_pow2 by lia.
        pose proof (Z.mul_div_le n (2 ^ 7) ltac:(lia)) as Hdiv.
        change (2 ^ 7) with 128 in *.
        remember (n / 128) as Q eqn:HQ.
        remember (2 ^ (7 * (Z.of_nat (List.length (encode_varint fuel Q)) - 1)))
          as P eqn:HP.
        clear - Hmin Hdiv. lia.
Qed.

Lemma zigzag_nonneg (w v : Z) :
  0 < w -> 0 <= v < 2 ^ (w - 1) -> zigzag w v = 2 * v.
Proof.
  intros Hw Hv. unfold zigzag. pose proof (pow2_half w Hw) as Hp.
  rewrite Z.shiftr_div_pow2 by lia. rewrite Z.div_small by lia.
  rewrite Z.lxor_0_r, Z.land_ones by lia. rewrite Z.shiftl_mul_pow2 by lia.
  rewrite Z.mod_small; lia.
Qed.

Lemma zigzag_neg (w v : Z) :
  0 < w -> - 2 ^ (w - 1) <= v < 0 -> zigzag w v = - 2 * v - 1.
Proof.
  intros Hw Hv. unfold zigzag. pose proof (pow2_half w Hw) as Hp.
  rewrite Z.shiftr_div_pow2 by lia.
  assert (Hd : v / 2 ^ (w - 1) = -1).
  { symmetry. apply Z.div_unique with (r := v + 2 ^ (w - 1)); lia. }
  rewrite Hd, Z.lxor_m1_r, Z.lnot_eq_pred_opp, Z.land_ones by lia.
  rewrite Z.shiftl_mul_pow2 by lia.
  rewrite Z.mod_small; lia.
Qed.

Lemma zigzag_range (w v : Z) : 0 < w -> 0 <= zigzag w v < 2 ^ w.
Proof.
  intros Hw. unfold zigzag. rewrite Z.land_ones by lia.
  apply Z.mod_pos_bound. lia.
Qed.

(** The formula of [svarint] in an unsigned type undoes [zigzag], up to
    the width of the type. *)
Lemma zigzag_decode_unsigned (w v : Z) :
  0 < w -> - 2 ^ (w - 1) <= v < 2 ^ (w - 1) ->
  (Z.lxor (Z.shiftr (zigzag w v) 1)
          ((- (Z.land (zigzag w v) 1 mod 2 ^ w)) mod 2 ^ w)) mod 2 ^ w
  = v mod 2 ^ w.
Proof.
  intros Hw Hv. pose proof (pow2_half w Hw) as Hp.
  assert (H1 : 1 <= 2 ^ (w - 1)) by (apply (Z.pow_le_mono_r 2 0 (w - 1)); lia).
  destruct (Z.lt_ge_cases v 0) as [Hneg | Hpos].
  - rewrite zigzag_neg by lia.
    assert (L : Z.land (- 2 * v - 1) 1 = 1).
    { change (Z.land (- 2 * v - 1) (Z.ones 1) = 1). rewrite Z.land_ones by lia.
      symmetry. apply Z.mod_unique with (q := - v - 1); lia. }
    rewrite L. rewrite (Z.mod_small 1) by lia.
    assert (O : (- (1)) mod 2 ^ w = Z.ones w).
    { rewrite Z.ones_equiv. symmetry. apply Z.mod_unique with (q := -1); lia. }
    rewrite O. rewrite Z.shiftr_div_pow2 by lia. change (2 ^ 1) with 2.
    assert (D : (- 2 * v - 1) / 2 = - v - 1).
    { symmetry. apply Z.div_unique with (r := 1); lia. }
    rewrite D. rewrite <- !Z.land_ones by lia.
    replace v with (Z.lnot (- v - 1)) at 2
      by (rewrite Z.lnot_eq_pred_opp; lia).
    bits.
  - rewrite zigzag_nonneg by lia.
    assert (L : Z.land (2 * v) 1 = 0).
    { change (Z.land (2 * v) (Z.ones 1) = 0). rewrite Z.land_ones by lia.
      change (2 ^ 1) with 2. rewrite Z.mul_comm. apply Z.mod_mul. lia. }
    rewrite L. change (- (0 mod 2 ^ w) mod 2 ^ w) with 0.
    rewrite Z.lxor_0_r. rewrite Z.shiftr_div_pow2 by lia. change (2 ^ 1) with 2.
    rewrite Z.mul_comm, Z.div_mul by lia. reflexivity.
Qed.

Lemma signed_of_unsigned (w v : Z) :
  0 < w -> - 2 ^ (w - 1) <= v < 2 ^ (w - 1) ->
  wrap (IntType w true) (v mod 2 ^ w) = v.
Proof.
  intros Hw Hv. pose proof (pow2_half w Hw) as Hp.
  unfold wrap; cbn [is_signed bits].
  rewrite Z.add_mod_idemp_l by lia. rewrite Z.mod_small; lia.
Qed.

Lemma wrap_signed_small T z :
  is_signed T = true -> 0 < bits T ->
  - 2 ^ (bits T - 1) <= z < 2 ^ (bits T - 1) -> wrap T z = z.
Proof.
  intros Hs Hw Hz. unfold wrap. rewrite Hs.
  pose proof (pow2_half (bits T) Hw). rewrite Z.mod_small; lia.
Qed.

(** The formula of [svarint] in a signed type undoes [zigzag] on the half
    of the range whose images have the top bit clear. *)
Lemma zigzag_decode_signed T v :
  is_signed T = true -> 2 <= bits T ->
  - 2 ^ (bits T - 2) <= v < 2 ^ (bits T - 2) ->
  wrap T (zigzag (bits T) v) = zigzag (bits T) v /\
  wrap T (Z.lxor (Z.shiftr (zigzag (bits T) v) 1)
            (wrap T (- wrap T (Z.land (zigzag (bits T) v) 1)))) = v.
Proof.
  intros Hs Hw Hv.
  pose proof (pow2_half (bits T) ltac:(lia)) as Hp.
  pose proof (pow2_half (bits T - 1) ltac:(lia)) as Hq.
  replace (bits T - 1 - 1) with (bits T - 2) in Hq by lia.
  assert (H1 : 1 <= 2 ^ (bits T - 2))
    by (apply (Z.pow_le_mono_r 2 0 (bits T - 2)); lia).
  destruct (Z.lt_ge_cases v 0) as [Hneg | Hpos].
  - rewrite zigzag_neg by lia.
    assert (L : Z.land (- 2 * v - 1) 1 = 1).
    { change (Z.land (- 2 * v - 1) (Z.ones 1) = 1). rewrite Z.land_ones by lia.
      symmetry. apply Z.mod_unique with (q := - v - 1); lia. }
    assert (D : Z.shiftr (- 2 * v - 1) 1 = - v - 1).
    { rewrite Z.shiftr_div_pow2 by lia. change (2 ^ 1) with 2.
      symmetry. apply Z.div_unique with (r := 1); lia. }
    rewrite L, D. rewrite !(wrap_signed_small T 1) by (assumption || lia).
    rewrite (wrap_signed_small T (- (1))) by (assumption || lia).
    rewrite Z.lxor_m1_r, Z.lnot_eq_pred_opp.
    replace (- (- v - 1) - 1) with v by lia.
    split; apply wrap_signed_small; assumption || lia.
  - rewrite zigzag_nonneg by lia.
    assert (L : Z.land (2 * v) 1 = 0).
    { change (Z.land (2 * v) (Z.ones 1) = 0). rewrite Z.land_ones by lia.
      change (2 ^ 1) with 2. rewrite Z.mul_comm. apply Z.mod_mul. lia. }
    assert (D : Z.shiftr (2 * v) 1 = v).
    { rewrite Z.shiftr_div_pow2 by lia. change (2 ^ 1) with 2.
      rewrite Z.mul_comm. apply Z.div_mul. lia. }
    rewrite L, D. rewrite !(wrap_signed_small T 0) by (assumption || lia).
    change (Z.opp 0) with 0. rewrite (wrap_signed_small T 0) by (assumption || lia).
    rewrite Z.lxor_0_r.
    split; apply wrap_signed_small; assumption || lia.
Qed.

(** ** The other member functions *)

Lemma load_range_eq mem n : forall p c,
  load_range mem p n c = (Ok (map mem (addrs p n)), c, addrs p n).
Proof.
  induction n as [|n IH]; intros p c; cbn [load_range addrs map]; [reflexivity|].
  rewrite (bind_ok _ _ c (mem p) c [p]) by reflexivity.
  rewrite (bind_ok _ _ c _ c _ (IH (p + 1) c)).
  unfold prepend_reads, ret; cbn [outcome_of cursor_of reads_of fst snd app].
  now rewrite app_nil_r.
Qed.

Lemma svarint_in_bounds debug overshift mem T c :
  data c <= end_ c -> in_bounds c (svarint debug overshift mem T c).
Proof.
  intros Hc. unfold svarint. apply in_bounds_bind.
  - now apply varint_in_bounds.
  - intros a c1 r1 _ Hc1. now apply in_bounds_here.
Qed.

Lemma next_eq debug overshift mem c :
  next debug overshift mem c =
  if data c <? end_ c then
    match varint debug overshift mem uint32_t c with
    | (Ok v, c1, r1) =>
        (Ok true,
         mk_pbf (data c1) (end_ c1) (wrap uint32_t v) (Z.shiftr (wrap uint32_t v) 3),
         r1)
    | (Fail f, c1, r1) => (Fail f, c1, r1)
    end
  else (Ok false, c, []).
Proof.
  unfold next. rewrite bind_get. destruct (data c <? end_ c); [|reflexivity].
  destruct (varint debug overshift mem uint32_t c) as [[[v|f] c1] r1] eqn:E.
  - rewrite (bind_ok _ _ _ _ _ _ E).
    unfold prepend_reads, bind, set_value, set_tag, ret.
    cbn. now rewrite app_nil_r.
  - now rewrite (bind_fail _ _ _ _ _ _ E).
Qed.

Lemma next_in_bounds debug overshift mem c :
  data c <= end_ c -> in_bounds c (next debug overshift mem c).
Proof.
  intros Hc. rewrite next_eq. destruct (data c <? end_ c); [|now apply in_bounds_here].
  pose proof (varint_in_bounds debug overshift mem uint32_t c Hc) as Hv.
  destruct (varint debug overshift mem uint32_t c) as [[[v|f] c1] r1]; exact Hv.
Qed.

(** A successful [next] consumed at least the first byte of a key. *)
Lemma next_progress debug overshift mem c c1 r1 :
  next debug overshift mem c = (Ok true, c1, r1) ->
  data c < data c1 <= end_ c /\ end_ c1 = end_ c.
Proof.
  rewrite next_eq. destruct (data c <? end_ c) eqn:El; [|discriminate].
  apply Z.ltb_lt in El.
  destruct (varint_precondition_cases debug c) as [[-> Ha] | Hw].
  - rewrite varint_assert_fails by assumption. discriminate.
  - rewrite varint_eq by assumption.
    change 10%nat with (S 9). rewrite varint_loop_step by reflexivity.
    assert (E : (data c >=? end_ c) = false)
      by (rewrite Z.geb_leb; apply Z.leb_gt; lia).
    rewrite E.
    pose proof (varint_loop_in_bounds overshift mem uint32_t 9 (0 + 7) (mem (data c))
      (add_group overshift uint32_t 0 0 (mem (data c)))
      (advance c 1)) as Hb.
    destruct (varint_loop overshift mem uint32_t 9 (0 + 7) (mem (data c)) _
                (advance c 1))
      as [[[[[bitpos b] result]|f] c2] r2];
      unfold prepend_reads; cbn [outcome_of cursor_of reads_of fst snd];
      [destruct ((bitpos =? 70) && continues b)|]; try discriminate.
    intros H; inversion H; subst; clear H. cbn [data end_].
    destruct Hb as (He & Hd & _); [cbn; lia|].
    cbn [cursor_of fst snd data end_ advance] in *. lia.
Qed.

Lemma next_false debug overshift mem c c1 r1 :
  next debug overshift mem c = (Ok false, c1, r1) ->
  c1 = c /\ r1 = [] /\ end_ c <= data c.
Proof.
  rewrite next_eq. destruct (data c <? end_ c) eqn:El.
  - destruct (varint debug overshift mem uint32_t c) as [[[v|f] c2] r2]; discriminate.
  - apply Z.ltb_ge in El. intros H; inversion H; subst. repeat split. lia.
Qed.

Lemma fixed_in_bounds debug mem bytes c :
  0 <= bytes < 2 ^ 32 -> data c <= end_ c -> in_bounds c (fixed debug mem bytes c).
Proof.
  intros Hb Hc. unfold fixed. apply bounded_bind.
  { now apply assert_pure_in_bounds. }
  intros [] c0 r0 Ea _ _. apply assert_pure_cursor in Ea. destruct Ea as [-> ->].
  rewrite wrap_uint32, Z.mod_small by lia.
  unfold bind at 1. rewrite skipBytes_eq.
  destruct (data c + bytes >? end_ c) eqn:E; [now apply bounded_here|].
  rewrite Z.gtb_ltb in E. apply Z.ltb_ge in E.
  rewrite bind_get, load_range_eq. cbn [data advance].
  unfold bounded; cbn [cursor_of reads_of fst snd data end_ advance app].
  repeat split; try lia.
  replace (data c + bytes - bytes) with (data c) by lia.
  eapply Forall_impl; [|apply (addrs_range (data c) (Z.to_nat bytes) (data c)); lia].
  cbv beta. intros; lia.
Qed.

Lemma float32_in_bounds debug mem c :
  data c <= end_ c -> in_bounds c (float32 debug mem c).
Proof.
  intros Hc. unfold float32. apply in_bounds_bind.
  - now apply assert_pure_in_bounds.
  - intros a c1 r1 _ Hc1. apply fixed_in_bounds; [lia | assumption].
Qed.

Lemma float64_in_bounds debug mem c :
  data c <= end_ c -> in_bounds c (float64 debug mem c).
Proof.
  intros Hc. unfold float64. apply in_bounds_bind.
  - now apply assert_pure_in_bounds.
  - intros a c1 r1 _ Hc1. apply fixed_in_bounds; [lia | assumption].
Qed.

Lemma string_in_bounds debug overshift mem c :
  data c <= end_ c -> in_bounds c (string_ debug overshift mem c).
Proof.
  intros Hc. unfold string_. apply in_bounds_bind.
  { now apply assert_pure_in_bounds. }
  intros [] c0 r0 _ Hc0. apply in_bounds_bind.
  { now apply varint_in_bounds. }
  intros v c1 r1 _ Hc1. rewrite bind_get.
  pose proof (wrap_uint32_range v) as Hv.
  unfold bind. rewrite skipBytes_eq.
  destruct (data c1 + wrap uint32_t v >? end_ c1) eqn:E; [now apply in_bounds_here|].
  rewrite Z.gtb_ltb in E. apply Z.ltb_ge in E.
  rewrite load_range_eq.
  unfold in_bounds, bounded; cbn [cursor_of reads_of fst snd data end_ advance app].
  repeat split; try lia.
  eapply Forall_impl;
    [|apply (addrs_range (data c1) (Z.to_nat (wrap uint32_t v)) (data c1)); lia].
  cbv beta. intros; lia.
Qed.

(** [boolean], case by case. *)
Lemma boolean_eq debug mem c :
  boolean debug mem c =
  if debug && negb (is_wire_type c 0)
  then (Fail (AssertionFailed "not a varint"), c, [])
  else if debug && continues (mem (data c))
  then (Fail (AssertionFailed "not a 1 byte varint"), c, [data c])
  else if data c + 1 >? end_ c
  then (Fail (Throw end_of_buffer_exception), c, if debug then [data c] else [])
  else (Ok (negb (byte.unsigned (mem (data c)) =? 0)), advance c 1,
        if debug then [data c; data c] else [data c]).
Proof.
  unfold boolean.
  assert (Htail :
    (skipBytes 1;;; c0 <- get;; b <- load mem (data c0 - 1);;
       ret (negb (byte.unsigned b =? 0))) c =
    if data c + 1 >? end_ c
    then (Fail (Throw end_of_buffer_exception), c, [])
    else (Ok (negb (byte.unsigned (mem (data c)) =? 0)), advance c 1, [data c])).
  { unfold bind at 1. rewrite skipBytes_eq.
    destruct (data c + 1 >? end_ c); [reflexivity|].
    rewrite bind_get. unfold bind, load, ret. cbn [data advance app].
    replace (data c + 1 - 1) with (data c) by lia. reflexivity. }
  destruct debug; cbn [andb].
  - destruct (is_wire_type c 0) eqn:Ew; cbn [negb].
    2:{ apply bind_fail. rewrite assert_pure. now rewrite Ew. }
    rewrite (bind_ok _ _ c tt c []) by (rewrite assert_pure; now rewrite Ew).
    rewrite prepend_reads_nil.
    assert (Ea : assert_ true
              (c0 <- get;; b <- load mem (data c0);;
               ret (Z.land (byte.unsigned b) 0x80 =? 0))
              "not a 1 byte varint" c =
            if continues (mem (data c))
            then (Fail (AssertionFailed "not a 1 byte varint"), c, [data c])
            else (Ok tt, c, [data c])).
    { unfold assert_.
      rewrite (bind_ok _ _ c (Z.land (byte.unsigned (mem (data c))) 0x80 =? 0)
                 c [data c]).
      2:{ rewrite bind_get. unfold bind, load, ret. reflexivity. }
      unfold continues.
      now destruct (Z.land (byte.unsigned (mem (data c))) 0x80 =? 0). }
    destruct (continues (mem (data c))).
    + now apply bind_fail.
    + rewrite (bind_ok _ _ _ _ _ _ Ea). rewrite Htail.
      now destruct (data c + 1 >? end_ c).
  - rewrite (bind_ok _ _ c tt c []) by apply assert_off.
    rewrite prepend_reads_nil.
    rewrite (bind_ok _ _ c tt c []) by apply assert_off.
    rewrite prepend_reads_nil.
    rewrite Htail. now destruct (data c + 1 >? end_ c).
Qed.

Lemma boolean_in_bounds debug mem c :
  debug = false \/ data c < end_ c ->
  data c <= end_ c -> in_bounds c (boolean debug mem c).
Proof.
  intros Hd Hc. rewrite boolean_eq.
  assert (Hread : debug = true -> Forall (fun a => data c <= a < end_ c) [data c]).
  { intros ->. destruct Hd as [Hd | Hd]; [discriminate|].
    constructor; [lia|constructor]. }
  destruct (debug && negb (is_wire_type c 0)); [now apply in_bounds_here|].
  destruct (debug && continues (mem (data c))) eqn:E1.
  { apply andb_true_iff in E1. destruct E1 as [-> _].
    unfold in_bounds, bounded; cbn [cursor_of reads_of fst snd].
    repeat split; try lia. now apply Hread. }
  destruct (data c + 1 >? end_ c) eqn:E.
  - unfold in_bounds, bounded; cbn [cursor_of reads_of fst snd].
    repeat split; try lia. destruct debug; [now apply Hread | constructor].
  - rewrite Z.gtb_ltb in E. apply Z.ltb_ge in E.
    unfold in_bounds, bounded; cbn [cursor_of reads_of fst snd data end_ advance].
    repeat split; try lia.
    destruct debug; repeat constructor; lia.
Qed.

(** [message], case by case. *)
Lemma message_eq debug overshift mem c :
  message debug overshift mem c =
  if debug && negb (is_wire_type c 2)
  then (Fail (AssertionFailed "not a message"), c, [])
  else
    match varint debug overshift mem uint32_t c with
    | (Ok v, c1, r1) =>
        if data c1 + wrap uint32_t v >? end_ c1
        then (Fail (Throw end_of_buffer_exception), c1, r1)
        else (Ok (new_pbf (data c1) (wrap uint32_t v)),
              advance c1 (wrap uint32_t v), r1)
    | (Fail f, c1, r1) => (Fail f, c1, r1)
    end.
Proof.
  unfold message.
  destruct (debug && negb (is_wire_type c 2)) eqn:Ea.
  { apply bind_fail. rewrite assert_pure. now rewrite Ea. }
  rewrite (bind_ok _ _ c tt c []) by (rewrite assert_pure; now rewrite Ea).
  rewrite prepend_reads_nil.
  destruct (varint debug overshift mem uint32_t c) as [[[v|f] c1] r1] eqn:E.
  - rewrite (bind_ok _ _ _ _ _ _ E). rewrite bind_get.
    destruct (data c1 + wrap uint32_t v >? end_ c1) eqn:Es.
    + rewrite (bind_fail _ _ c1 (Throw end_of_buffer_exception) c1 [])
        by (rewrite skipBytes_eq; now rewrite Es).
      unfold prepend_reads; cbn. now rewrite app_nil_r.
    + rewrite (bind_ok _ _ c1 tt (advance c1 (wrap uint32_t v)) [])
        by (rewrite skipBytes_eq; now rewrite Es).
      unfold prepend_reads, ret; cbn. now rewrite app_nil_r.
  - now apply bind_fail.
Qed.

Lemma message_in_bounds debug overshift mem c :
  data c <= end_ c -> in_bounds c (message debug overshift mem c).
Proof.
  intros Hc. rewrite message_eq.
  destruct (debug && negb (is_wire_type c 2)); [now apply in_bounds_here|].
  pose proof (varint_in_bounds debug overshift mem uint32_t c Hc) as Hv.
  pose proof (wrap_uint32_range
                (match outcome_of (varint debug overshift mem uint32_t c) with
                 | Ok v => v
                 | Fail _ => 0
                 end)) as Hr.
  destruct (varint debug overshift mem uint32_t c) as [[[v|f] c1] r1]; [|exact Hv].
  cbn [outcome_of fst] in Hr.
  destruct (data c1 + wrap uint32_t v >? end_ c1) eqn:E; [exact Hv|].
  rewrite Z.gtb_ltb in E. apply Z.ltb_ge in E.
  destruct Hv as (He & Hd & Hreads).
  unfold in_bounds, bounded in *.
  cbn [cursor_of reads_of fst snd data end_ advance] in *.
  repeat split; try lia. exact Hreads.
Qed.

(** [skipValue], wire type by wire type. *)
Lemma skipValue_unknown debug overshift mem val :
  ~ In (Z.land val 7) [0; 1; 2; 5] ->
  skipValue debug overshift mem val = throw unknown_field_type_exception.
Proof.
  intros H. unfold skipValue. cbn [In] in H.
  destruct (Z.land val 7) as [|p|p]; [tauto| |reflexivity].
  destruct p as [p|p|]; [| |tauto].
  - destruct p as [p|p|]; [reflexivity| |reflexivity].
    destruct p as [p|p|]; [reflexivity|reflexivity|tauto].
  - destruct p as [p|p|]; [reflexivity|reflexivity|tauto].
Qed.

Lemma skipValue_in_bounds debug overshift mem val c :
  data c <= end_ c -> in_bounds c (skipValue debug overshift mem val c).
Proof.
  intros Hc.
  assert (Hv : in_bounds c ((varint debug overshift mem uint32_t;;; ret tt) c)).
  { apply in_bounds_bind; [now apply varint_in_bounds|].
    intros a c1 r1 _ Hc1. now apply in_bounds_here. }
  assert (Hl : in_bounds c
            ((v <- varint debug overshift mem uint32_t;;
              skipBytes (wrap uint32_t v)) c)).
  { apply in_bounds_bind; [now apply varint_in_bounds|].
    intros a c1 r1 _ Hc1. apply skipBytes_in_bounds; [|assumption].
    apply wrap_uint32_range. }
  assert (H8 : in_bounds c (skipBytes 8 c)) by (apply skipBytes_in_bounds; lia).
  assert (H4 : in_bounds c (skipBytes 4 c)) by (apply skipBytes_in_bounds; lia).
  assert (Hu : in_bounds c (throw (A := unit) unknown_field_type_exception c))
    by now apply in_bounds_here.
  unfold skipValue.
  destruct (Z.land val 7) as [|p|p]; [assumption| |assumption].
  destruct p as [p|p|]; [| |assumption].
  - destruct p as [p|p|]; [assumption| |assumption].
    destruct p as [p|p|]; assumption.
  - destruct p as [p|p|]; assumption.
Qed.

Lemma skip_in_bounds debug overshift mem c :
  data c <= end_ c -> in_bounds c (skip debug overshift mem c).
Proof.
  intros Hc. unfold skip. rewrite bind_get. now apply skipValue_in_bounds.
Qed.

(** ** The loop of [next(tag)] *)

Lemma skip_progress debug overshift mem c c1 r1 :
  data c <= end_ c ->
  skip debug overshift mem c = (Ok tt, c1, r1) ->
  data c <= data c1 <= end_ c /\ end_ c1 = end_ c.
Proof.
  intros Hc E. pose proof (skip_in_bounds debug overshift mem c Hc) as (He & Hd & _).
  rewrite E in *. cbn [cursor_of fst snd] in *. lia.
Qed.

Lemma skip_total debug overshift mem c :
  outcome_of (skip debug overshift mem c) <> Fail OutOfFuel.
Proof.
  unfold skip. rewrite bind_get.
  assert (Hs : forall n c0, outcome_of (skipBytes n c0) <> Fail OutOfFuel).
  { intros n c0. rewrite skipBytes_eq. destruct (_ >? _); discriminate. }
  assert (Hb : forall (k : Z -> M unit),
             (forall v c0, outcome_of (k v c0) <> Fail OutOfFuel) ->
             outcome_of (bind (varint debug overshift mem uint32_t) k c)
             <> Fail OutOfFuel).
  { intros k Hk. pose proof (varint_total debug overshift mem uint32_t c) as Hv.
    destruct (varint debug overshift mem uint32_t c) as [[[v|f] c1] r1] eqn:E.
    - rewrite (bind_ok _ _ _ _ _ _ E). unfold prepend_reads; cbn [outcome_of fst].
      apply Hk.
    - rewrite (bind_fail _ _ _ _ _ _ E). cbn [outcome_of fst] in *. congruence. }
  unfold skipValue.
  destruct (Z.land (value c) 7) as [|p|p];
    [apply Hb; discriminate| |discriminate].
  destruct p as [p|p|]; [| |apply Hs].
  - destruct p as [p|p|]; [discriminate| |discriminate].
    destruct p as [p|p|]; [discriminate|discriminate|apply Hs].
  - destruct p as [p|p|]; [discriminate|discriminate|].
    apply Hb. intros v c0. apply Hs.
Qed.

Lemma next_total debug overshift mem c :
  outcome_of (next debug overshift mem c) <> Fail OutOfFuel.
Proof.
  rewrite next_eq. destruct (data c <? end_ c); [|discriminate].
  pose proof (varint_total debug overshift mem uint32_t c) as Hv.
  destruct (varint debug overshift mem uint32_t c) as [[[v|f] c1] r1];
    cbn [outcome_of fst] in *; congruence.
Qed.

Lemma next_tag_loop_S debug overshift mem fuel t c :
  next_tag_loop debug overshift mem (S fuel) t c =
  match next debug overshift mem c with
  | (Ok true, c1, r1) =>
      if tag c1 =? t then (Ok true, c1, r1)
      else match skip debug overshift mem c1 with
           | (Ok _, c2, r2) =>
               prepend_reads (r1 ++ r2) (next_tag_loop debug overshift mem fuel t c2)
           | (Fail f, c2, r2) => (Fail f, c2, r1 ++ r2)
           end
  | (Ok false, c1, r1) => (Ok false, c1, r1)
  | (Fail f, c1, r1) => (Fail f, c1, r1)
  end.
Proof.
  cbn [next_tag_loop].
  destruct (next debug overshift mem c) as [[[[|]|f] c1] r1] eqn:E.
  - rewrite (bind_ok _ _ _ _ _ _ E). rewrite bind_get.
    destruct (tag c1 =? t).
    + unfold prepend_reads, ret; cbn. now rewrite app_nil_r.
    + destruct (skip debug overshift mem c1) as [[[[]|f] c2] r2] eqn:Es.
      * rewrite (bind_ok _ _ _ _ _ _ Es). now rewrite prepend_reads_app.
      * rewrite (bind_fail _ _ _ _ _ _ Es). reflexivity.
  - rewrite (bind_ok _ _ _ _ _ _ E).
    unfold prepend_reads, ret; cbn. now rewrite app_nil_r.
  - now rewrite (bind_fail _ _ _ _ _ _ E).
Qed.

(** One unit of fuel more than there are bytes left is as good as any
    larger amount. *)
Lemma next_tag_loop_fuel debug overshift mem t fuel : forall k c,
  (Z.to_nat (end_ c - data c) < fuel)%nat ->
  next_tag_loop debug overshift mem (fuel + k) t c =
  next_tag_loop debug overshift mem fuel t c.
Proof.
  induction fuel as [|fuel IH]; intros k c Hf; [lia|].
  cbn [Nat.add]. rewrite !next_tag_loop_S.
  destruct (next debug overshift mem c) as [[[[|]|f] c1] r1] eqn:E; try reflexivity.
  destruct (tag c1 =? t); [reflexivity|].
  apply next_progress in E. destruct E as [Hd He].
  destruct (skip debug overshift mem c1) as [[[[]|f] c2] r2] eqn:Es; [|reflexivity].
  apply skip_progress in Es; [|lia].
  rewrite IH; [reflexivity|]. lia.
Qed.

Lemma next_tag_loop_total debug overshift mem t fuel : forall c,
  (Z.to_nat (end_ c - data c) < fuel)%nat ->
  outcome_of (next_tag_loop debug overshift mem fuel t c) <> Fail OutOfFuel.
Proof.
  induction fuel as [|fuel IH]; intros c Hf; [lia|].
  rewrite next_tag_loop_S.
  pose proof (next_total debug overshift mem c) as Hn.
  destruct (next debug overshift mem c) as [[[[|]|f] c1] r1] eqn:E;
    cbn [outcome_of fst] in *; try congruence.
  destruct (tag c1 =? t); [discriminate|].
  apply next_progress in E. destruct E as [Hd He].
  pose proof (skip_total debug overshift mem c1) as Hs.
  destruct (skip debug overshift mem c1) as [[[[]|f] c2] r2] eqn:Es;
    cbn [outcome_of fst] in *; [|congruence].
  apply skip_progress in Es; [|lia].
  unfold prepend_reads; cbn [outcome_of fst]. apply IH. lia.
Qed.

(** The loop as its own unfolding, free of fuel. *)
Lemma next_tag_unfold debug overshift mem t c :
  next_tag debug overshift mem t c =
  match next debug overshift mem c with
  | (Ok true, c1, r1) =>
      if tag c1 =? t then (Ok true, c1, r1)
      else match skip debug overshift mem c1 with
           | (Ok _, c2, r2) =>
               prepend_reads (r1 ++ r2) (next_tag debug overshift mem t c2)
           | (Fail f, c2, r2) => (Fail f, c2, r1 ++ r2)
           end
  | (Ok false, c1, r1) => (Ok false, c1, r1)
  | (Fail f, c1, r1) => (Fail f, c1, r1)
  end.
Proof.
  unfold next_tag. rewrite bind_get, next_tag_loop_S.
  destruct (next debug overshift mem c) as [[[[|]|f] c1] r1] eqn:E; try reflexivity.
  destruct (tag c1 =? t); [reflexivity|].
  apply next_progress in E. destruct E as [Hd He].
  destruct (skip debug overshift mem c1) as [[[[]|f] c2] r2] eqn:Es; [|reflexivity].
  apply skip_progress in Es; [|lia].
  rewrite bind_get. f_equal.
  replace (Z.to_nat (end_ c - data c))
    with (S (Z.to_nat (end_ c2 - data c2))
          + (Z.to_nat (end_ c - data c) - S (Z.to_nat (end_ c2 - data c2))))%nat
    by lia.
  apply next_tag_loop_fuel. lia.
Qed.

Lemma next_tag_total debug overshift mem t c :
  outcome_of (next_tag debug overshift mem t c) <> Fail OutOfFuel.
Proof.
  unfold next_tag. rewrite bind_get. apply next_tag_loop_total. lia.
Qed.

Lemma next_tag_skipped debug overshift mem t c c0 r0 :
  skipped debug overshift mem t c c0 r0 ->
  next_tag debug overshift mem t c =
  prepend_reads r0 (next_tag debug overshift mem t c0).
Proof.
  induction 1 as [c | c c1 c2 c3 r1 r2 r3 En Et Es Hsk IH].
  - now rewrite prepend_reads_nil.
  - rewrite (next_tag_unfold debug overshift mem t c), En, Et, Es, IH.
    now rewrite prepend_reads_app, app_assoc.
Qed.

Lemma next_tag_loop_sound debug overshift mem t fuel : forall c b c' r,
  next_tag_loop debug overshift mem fuel t c = (Ok b, c', r) ->
  if b : bool
  then exists c0 r0 r1,
         skipped debug overshift mem t c c0 r0 /\
         next debug overshift mem c0 = (Ok true, c', r1) /\
         tag c' = t /\ r = r0 ++ r1
  else skipped debug overshift mem t c c' r /\ end_ c' <= data c'.
Proof.
  induction fuel as [|fuel IH]; intros c b c' r E; [discriminate|].
  rewrite next_tag_loop_S in E.
  destruct (next debug overshift mem c) as [[[[|]|f] c1] r1] eqn:En; try discriminate.
  - destruct (tag c1 =? t) eqn:Et.
    + inversion E; subst; clear E. apply Z.eqb_eq in Et.
      exists c, [], r. repeat split; try assumption. constructor.
    + destruct (skip debug overshift mem c1) as [[[[]|f] c2] r2] eqn:Es;
        [|discriminate].
      destruct (next_tag_loop debug overshift mem fuel t c2) as [[o c3] r3] eqn:El.
      unfold prepend_reads in E; cbn [outcome_of cursor_of reads_of fst snd] in E.
      inversion E; subst; clear E.
      specialize (IH c2 b c' r3 El). destruct b.
      * destruct IH as (c0 & r0 & r4 & Hsk & Hn & Ht & ->).
        exists c0, (r1 ++ r2 ++ r0), r4. repeat split; try assumption.
        -- econstructor; eassumption.
        -- now rewrite <- !app_assoc.
      * destruct IH as [Hsk Hend]. split; [|assumption].
        rewrite <- app_assoc. econstructor; eassumption.
  - inversion E; subst; clear E.
    apply next_false in En. destruct En as (-> & -> & Hend).
    split; [constructor | lia].
Qed.

Lemma next_tag_loop_in_bounds debug overshift mem t fuel : forall c,
  data c <= end_ c -> in_bounds c (next_tag_loop debug overshift mem fuel t c).
Proof.
  induction fuel as [|fuel IH]; intros c Hc; cbn [next_tag_loop].
  - now apply in_bounds_here.
  - apply in_bounds_bind; [now apply next_in_bounds|].
    intros [|] c1 r1 _ Hc1; [|now apply in_bounds_here].
    rewrite bind_get. destruct (tag c1 =? t); [now apply in_bounds_here|].
    apply in_bounds_bind; [now apply skip_in_bounds|].
    intros [] c2 r2 _ Hc2. now apply IH.
Qed.

Lemma next_tag_in_bounds debug overshift mem t c :
  data c <= end_ c -> in_bounds c (next_tag debug overshift mem t c).
Proof.
  intros Hc. unfold next_tag. rewrite bind_get.
  now apply next_tag_loop_in_bounds.
Qed.

(** What [boolean] does to the cursor holds in every build, also where its
    assertion loads a byte it should not. *)
Lemma boolean_cursor debug mem c :
  data c <= end_ c ->
  end_ (cursor_of (boolean debug mem c)) = end_ c /\
  data c <= data (cursor_of (boolean debug mem c)) <= end_ c.
Proof.
  intros Hc. rewrite boolean_eq.
  destruct (debug && negb (is_wire_type c 0)); [cbn; lia|].
  destruct (debug && continues (mem (data c))); [cbn; lia|].
  destruct (data c + 1 >? end_ c) eqn:E; [cbn; lia|].
  rewrite Z.gtb_ltb in E. apply Z.ltb_ge in E. cbn. lia.
Qed.

(** With assertions on, [boolean] on an exhausted cursor loads the byte at
    [end]: the assertion dereferences [data] before [skipBytes] checks it. *)
Lemma boolean_assert_loads_end mem c :
  is_wire_type c 0 = true -> data c = end_ c ->
  In (end_ c) (reads_of (boolean true mem c)).
Proof.
  intros Hw He. rewrite boolean_eq, Hw. cbn [andb negb].
  destruct (continues (mem (data c))); [cbn; auto|].
  destruct (data c + 1 >? end_ c); cbn; auto.
Qed.

(** With assertions on, [next] after a field of wire type 1 or 5 (or any
    other than 0 and 2) stops on the assertion of [varint]. *)
Lemma next_asserts overshift mem c :
  is_wire_type c 0 || is_wire_type c 2 = false -> data c < end_ c ->
  next true overshift mem c = (Fail (AssertionFailed "not a varint"), c, []).
Proof.
  intros Hw Hd. rewrite next_eq.
  apply Z.ltb_lt in Hd. rewrite Hd.
  now rewrite varint_assert_fails.
Qed.

(** The result of [varint] is a value of [T]. *)
Lemma varint_loop_wrapped overshift mem T fuel :
  forall bitpos b r c bitpos' b' r' c' rd,
  2 <= bits T ->
  (exists x, r = wrap T x) ->
  varint_loop overshift mem T fuel bitpos b r c = (Ok (bitpos', b', r'), c', rd) ->
  exists x, r' = wrap T x.
Proof.
  induction fuel as [|fuel IH]; intros bitpos b r c bitpos' b' r' c' rd Hw Hr E;
    destruct ((bitpos <? 70) && continues b) eqn:Hcond.
  - rewrite varint_loop_out_of_fuel in E by assumption. discriminate.
  - rewrite varint_loop_exit in E by assumption. inversion E; subst. exact Hr.
  - rewrite varint_loop_step in E by assumption.
    destruct (data c >=? end_ c); [discriminate|].
    destruct (varint_loop overshift mem T fuel (bitpos + 7) (mem (data c)) _
                (advance c 1))
      as [[o c2] r2] eqn:El.
    unfold prepend_reads in E; cbn [outcome_of cursor_of reads_of fst snd] in E.
    inversion E; subst; clear E.
    eapply IH; [assumption| |exact El].
    destruct Hr as [x ->]. unfold add_group.
    destruct (shl_wrapped overshift T
                (Z.land (wrap T (byte.unsigned (mem (data c)))) 0x7F) bitpos)
      as [y ->].
    rewrite wrap_lor by assumption. eauto.
  - rewrite varint_loop_exit in E by assumption. inversion E; subst. exact Hr.
Qed.

Lemma wrap_wrap T x : 0 < bits T -> wrap T (wrap T x) = wrap T x.
Proof.
  intros Hw. unfold wrap. destruct (is_signed T).
  - pose proof (pow2_half (bits T) Hw).
    replace ((x + 2 ^ (bits T - 1)) mod 2 ^ bits T - 2 ^ (bits T - 1)
             + 2 ^ (bits T - 1))
      with ((x + 2 ^ (bits T - 1)) mod 2 ^ bits T) by lia.
    rewrite Z.mod_mod by lia. reflexivity.
  - apply Z.mod_mod. lia.
Qed.

Lemma varint_result_wrapped debug overshift mem T c v c1 r1 :
  2 <= bits T ->
  varint debug overshift mem T c = (Ok v, c1, r1) -> wrap T v = v.
Proof.
  intros Hw E.
  destruct (varint_precondition_cases debug c) as [[-> Ha] | Hwt].
  - rewrite varint_assert_fails in E by assumption. discriminate.
  - rewrite varint_eq in E by assumption.
    destruct (varint_loop overshift mem T 10 0 Byte.x80 0 c)
      as [[[[[bitpos b] result]|f] c2] r2] eqn:El; [|discriminate].
    destruct ((bitpos =? 70) && continues b); [discriminate|].
    inversion E; subst; clear E.
    destruct (varint_loop_wrapped overshift mem T 10 0 Byte.x80 0 c bitpos b v c1 r1 Hw)
      as [x ->]; [|assumption|].
    + exists 0. symmetry. apply Z.bits_inj'. intros i Hi.
      rewrite wrap_testbit by lia. rewrite !Z.testbit_0_l.
      destruct (is_signed T); [reflexivity | now rewrite andb_false_r].
    + apply wrap_wrap. lia.
Qed.

(** Decoding an encoded value: [varint<T>] on the encoding of [n], a value
    of the width of [T], returns [n] converted to [T], having consumed
    exactly the encoding. *)
Lemma varint_encode_varint debug overshift mem T n c :
  7 <= bits T <= 64 ->
  0 <= n < 2 ^ bits T ->
  wire_type_in debug c [0; 2] ->
  stored mem (data c) (encode_varint 10 n) ->
  data c + Z.of_nat (List.length (encode_varint 10 n)) <= end_ c ->
  varint debug overshift mem T c =
    (Ok (wrap T n), advance c (Z.of_nat (List.length (encode_varint 10 n))),
     addrs (data c) (List.length (encode_varint 10 n))).
Proof.
  intros Hw Hn Hwt Hst Hroom.
  destruct (encode_varint_correct 10 n) as (Hwf & Hval & Hlen & Hmin).
  { lia. }
  { split; [lia|]. apply Z.lt_le_trans with (2 ^ bits T); [lia|].
    apply Z.pow_le_mono_r; lia. }
  assert (Hshift : 7 * Z.of_nat (List.length (encode_varint 10 n)) < bits T + 7).
  { destruct Hmin as [H1 | Hmin]; [rewrite H1; lia|].
    assert (Hlt : 2 ^ (7 * (Z.of_nat (List.length (encode_varint 10 n)) - 1))
                  < 2 ^ bits T) by lia.
    apply Z.pow_lt_mono_r_iff in Hlt; lia. }
  rewrite (varint_decode debug overshift mem T _ c Hwt Hwf Hlen Hst Hroom).
  rewrite accumulate_value by (lia || (left; exact Hshift)).
  now rewrite Hval.
Qed.

Lemma varint_value_nonneg bs : 0 <= varint_value bs.
Proof.
  induction bs as [|b bs IH]; [cbn; lia|]. rewrite varint_value_cons.
  assert (0 <= group b) by (unfold group; apply Z.land_nonneg; lia).
  lia.
Qed.

Lemma addrs_app p n m :
  addrs p (n + m) = addrs p n ++ addrs (p + Z.of_nat n) m.
Proof.
  revert p. induction n as [|n IH]; intros p; cbn [Nat.add addrs app].
  - change (Z.of_nat 0) with 0. now rewrite Z.add_0_r.
  - rewrite IH, Nat2Z.inj_succ. do 3 f_equal. lia.
Qed.

(** The length of a length-delimited field, read off the wire: the bytes
    [bs] at the cursor are a complete varint whose value fits 32 bits, and
    no group of it is shifted by 32 or more (or such a shift leaves no
    bit); [varint<uint32_t>] then returns that value. *)
Lemma length_on_wire debug overshift mem bs c :
  wire_type_in debug c [2] ->
  is_varint bs = true ->
  (List.length bs <= 10)%nat ->
  (List.length bs <= 5)%nat \/ shifts_out overshift uint32_t ->
  stored mem (data c) bs ->
  data c + Z.of_nat (List.length bs) <= end_ c ->
  varint_value bs < 2 ^ 32 ->
  varint debug overshift mem uint32_t c =
    (Ok (varint_value bs), advance c (Z.of_nat (List.length bs)),
     addrs (data c) (List.length bs)) /\
  debug && negb (is_wire_type c 2) = false /\
  wrap uint32_t (varint_value bs) = varint_value bs.
Proof.
  intros Hwt Hv Hlen Hshift Hs Hroom HL.
  pose proof (varint_value_nonneg bs) as H0.
  assert (Hwrap : wrap uint32_t (varint_value bs) = varint_value bs)
    by (rewrite wrap_uint32; apply Z.mod_small; lia).
  assert (Hwt' : wire_type_in debug c [0; 2]).
  { destruct Hwt as [-> | Hwt]; [now left | right].
    cbn [In] in *. destruct Hwt as [Hwt | []]. auto. }
  split; [|split; [|exact Hwrap]].
  - rewrite (varint_decode debug overshift mem uint32_t bs c Hwt' Hv Hlen Hs Hroom).
    rewrite accumulate_value, Hwrap; [reflexivity | cbn [bits uint32_t]; lia |].
    destruct Hshift as [H5 | Hout]; [left; cbn [bits uint32_t]; lia | now right].
  - destruct Hwt as [-> | Hwt]; [reflexivity|].
    cbn [In] in Hwt. destruct Hwt as [Hwt | []].
    unfold is_wire_type. rewrite <- Hwt. now rewrite andb_false_r.
Qed.

(** * The properties of the specification *)

(** ** ZigZag round trip *)

(** C1 at the input where the code departs from it: the zigzag-varint
    encoding of [INT32_MAX], the bytes [fe ff ff ff 0f].  In the signed
    type [int32_t] the decoded varint is [-2] and the shift [n >> 1] of
    [svarint] is arithmetic: the result is [-1], not [INT32_MAX]. *)
Theorem svarint_int32_max_not_recovered :
  encode_svarint 32 2147483647 =
    [Byte.xfe; Byte.xff; Byte.xff; Byte.xff; Byte.x0f] /\
  varint true overshift_modular (mem_of (encode_svarint 32 2147483647))
    int32_t (new_pbf 0 5) =
    (Ok (-2), mk_pbf 5 5 0 0, [0; 1; 2; 3; 4]) /\
  svarint true overshift_modular (mem_of (encode_svarint 32 2147483647))
    int32_t (new_pbf 0 5) =
    (Ok (-1), mk_pbf 5 5 0 0, [0; 1; 2; 3; 4]) /\
  -1 <> 2147483647.
Proof.
  split; [vm_compute; reflexivity|].
  split; [vm_compute; reflexivity|].
  split; [vm_compute; reflexivity | discriminate].
Qed.

(** The other extreme, and both extremes of [int64_t], go wrong the same
    way. *)
Lemma svarint_signed_extremes :
  outcome_of (svarint true overshift_modular
                (mem_of (encode_svarint 32 (-2147483648)))
                int32_t (new_pbf 0 5)) = Ok 0 /\
  outcome_of (svarint true overshift_modular
                (mem_of (encode_svarint 64 9223372036854775807))
                int64_t (new_pbf 0 10)) = Ok (-1) /\
  outcome_of (svarint true overshift_modular
                (mem_of (encode_svarint 64 (-9223372036854775808)))
                int64_t (new_pbf 0 10)) = Ok 0.
Proof. repeat split; vm_compute; reflexivity. Qed.

(** X1. In an unsigned type the round trip holds over the whole range:
    for every signed [v] of width [w], decoding the zigzag-varint encoding of
    [v] with [svarint<T>], [T] the unsigned type of width [w] (as the
    declared default [uint32_t]), returns the two's complement bit pattern
    [v mod 2^w] of [v], which converts to exactly [v] in the signed type
    of that width; the extremes included. *)
Theorem svarint_roundtrip_unsigned debug overshift mem T v c :
  is_signed T = false ->
  7 <= bits T <= 64 ->
  - 2 ^ (bits T - 1) <= v < 2 ^ (bits T - 1) ->
  wire_type_in debug c [0; 2] ->
  stored mem (data c) (encode_svarint (bits T) v) ->
  data c + Z.of_nat (List.length (encode_svarint (bits T) v)) <= end_ c ->
  svarint debug overshift mem T c =
    (Ok (v mod 2 ^ bits T),
     advance c (Z.of_nat (List.length (encode_svarint (bits T) v))),
     addrs (data c) (List.length (encode_svarint (bits T) v))) /\
  wrap (IntType (bits T) true) (v mod 2 ^ bits T) = v.
Proof.
  intros Hs Hw Hv Hwt Hst Hroom.
  split; [|apply signed_of_unsigned; lia].
  pose proof (zigzag_range (bits T) v ltac:(lia)) as Hz.
  unfold svarint.
  rewrite (bind_ok _ _ _ _ _ _
             (varint_encode_varint debug overshift mem T _ c Hw Hz Hwt Hst Hroom)).
  unfold prepend_reads, ret; cbn [outcome_of cursor_of reads_of fst snd].
  rewrite app_nil_r. do 3 f_equal.
  rewrite !wrap_unsigned by assumption.
  rewrite (Z.mod_small (zigzag (bits T) v)) by lia.
  apply zigzag_decode_unsigned; lia.
Qed.

(** [INT32_MIN] through [svarint<uint32_t>]. *)
Lemma svarint_roundtrip_unsigned_int32_min :
  svarint true overshift_modular (mem_of (encode_svarint 32 (-2147483648)))
    uint32_t (new_pbf 0 5) =
    (Ok ((-2147483648) mod 2 ^ 32), advance (new_pbf 0 5) 5, addrs 0 5) /\
  wrap int32_t ((-2147483648) mod 2 ^ 32) = -2147483648.
Proof.
  apply (svarint_roundtrip_unsigned true overshift_modular
           (mem_of (encode_svarint 32 (-2147483648))) uint32_t
           (-2147483648) (new_pbf 0 5)).
  - reflexivity.
  - cbn; lia.
  - cbn; lia.
  - right. cbn. auto.
  - apply stored_mem_of.
  - vm_compute. discriminate.
Defined.

(** X2. With a signed [T] the round trip holds on the inner half of the
    range, where the ZigZag image has its top bit clear and the arithmetic
    shift is harmless. *)
Lemma svarint_roundtrip_signed_half debug overshift mem T v c :
  is_signed T = true ->
  7 <= bits T <= 64 ->
  - 2 ^ (bits T - 2) <= v < 2 ^ (bits T - 2) ->
  wire_type_in debug c [0; 2] ->
  stored mem (data c) (encode_svarint (bits T) v) ->
  data c + Z.of_nat (List.length (encode_svarint (bits T) v)) <= end_ c ->
  svarint debug overshift mem T c =
    (Ok v,
     advance c (Z.of_nat (List.length (encode_svarint (bits T) v))),
     addrs (data c) (List.length (encode_svarint (bits T) v))).
Proof.
  intros Hs Hw Hv Hwt Hst Hroom.
  pose proof (zigzag_range (bits T) v ltac:(lia)) as Hz.
  destruct (zigzag_decode_signed T v Hs ltac:(lia) Hv) as [Hin Hdec].
  unfold svarint.
  rewrite (bind_ok _ _ _ _ _ _
             (varint_encode_varint debug overshift mem T _ c Hw Hz Hwt Hst Hroom)).
  unfold prepend_reads, ret; cbn [outcome_of cursor_of reads_of fst snd].
  rewrite app_nil_r. do 3 f_equal.
  rewrite Hin. exact Hdec.
Qed.

(** ** Truncated varints *)

(** C3, as stated, refuted: ten bytes with the high bit set and then the
    end of the buffer is a buffer that ends before a terminating byte, yet
    [varint] reports a varint that is too long, not an unterminated one. *)
Lemma varint_ten_continuation_bytes :
  forallb continues (repeat Byte.x80 10) = true /\
  varint true overshift_modular (mem_of (repeat Byte.x80 10)) uint32_t (new_pbf 0 10) =
    (Fail (Throw varint_too_long_exception), mk_pbf 10 10 0 0,
     [0; 1; 2; 3; 4; 5; 6; 7; 8; 9]) /\
  Throw varint_too_long_exception <> Throw unterminated_varint_exception.
Proof.
  split; [vm_compute; reflexivity|].
  split; [vm_compute; reflexivity | discriminate].
Qed.

(** C3, amended: when fewer than ten bytes remain and every one of them
    has its high bit set, [varint<T>] fails with the unterminated-varint
    exception, having loaded exactly the remaining bytes: no byte outside
    [[data, end)]. *)
Theorem varint_unterminated debug overshift mem T c :
  wire_type_in debug c [0; 2] ->
  data c <= end_ c ->
  end_ c - data c < 10 ->
  (forall a, data c <= a < end_ c -> continues (mem a) = true) ->
  varint debug overshift mem T c =
    (Fail (Throw unterminated_varint_exception),
     advance c (end_ c - data c),
     addrs (data c) (Z.to_nat (end_ c - data c))) /\
  Forall (fun a => data c <= a < end_ c) (reads_of (varint debug overshift mem T c)).
Proof.
  intros Hwt Hc Hlen Hall.
  split; [|apply (varint_in_bounds debug overshift mem T c Hc)].
  rewrite varint_eq by assumption.
  rewrite (varint_loop_unterminated overshift mem T (Z.to_nat (end_ c - data c)));
    try lia; try assumption; try reflexivity.
  now rewrite Z2Nat.id by lia.
Qed.

Lemma varint_unterminated_witness :
  varint true overshift_modular (mem_of [Byte.xff; Byte.x80; Byte.x96])
    uint64_t (new_pbf 0 3) =
    (Fail (Throw unterminated_varint_exception),
     advance (new_pbf 0 3) (3 - 0), addrs 0 (Z.to_nat (3 - 0))) /\
  Forall (fun a => 0 <= a < 3)
    (reads_of (varint true overshift_modular
                 (mem_of [Byte.xff; Byte.x80; Byte.x96]) uint64_t (new_pbf 0 3))).
Proof.
  apply (varint_unterminated true overshift_modular
           (mem_of [Byte.xff; Byte.x80; Byte.x96]) uint64_t (new_pbf 0 3)).
  - right. cbn. auto.
  - cbn. lia.
  - cbn. lia.
  - cbn [data end_ new_pbf]. intros a Ha.
    assert (H : a = 0 \/ a = 1 \/ a = 2) by lia.
    destruct H as [-> | [-> | ->]]; reflexivity.
Defined.

(** ** Over-long varints *)

(** C4: a run of [varint<T>] loads at most ten bytes, consecutive from
    [data], and moves the cursor by as many; when the next ten bytes all
    have the high bit set it loads exactly those ten and fails with the
    varint-too-long exception. *)
Theorem varint_rejects_ten_groups debug overshift mem T c :
  data c <= end_ c ->
  (exists n : nat,
     (n <= 10)%nat /\
     cursor_of (varint debug overshift mem T c) = advance c (Z.of_nat n) /\
     reads_of (varint debug overshift mem T c) = addrs (data c) n) /\
  (wire_type_in debug c [0; 2] ->
   data c + 10 <= end_ c ->
   (forall a, data c <= a < data c + 10 -> continues (mem a) = true) ->
   varint debug overshift mem T c =
     (Fail (Throw varint_too_long_exception), advance c 10, addrs (data c) 10)).
Proof.
  intros Hc. split.
  - destruct (varint_shape debug overshift mem T c Hc) as (n & Hn & _ & Hcur & Hreads).
    exists n. auto.
  - intros Hwt Hroom Hall. rewrite varint_eq by assumption.
    destruct (varint_loop_too_long overshift mem T 10 10 0 Byte.x80 0 c)
      as (b' & r' & Hb' & Hrun); try assumption; try reflexivity; try lia.
    rewrite Hrun, Hb'. reflexivity.
Qed.

Lemma varint_rejects_ten_groups_witness :
  varint true overshift_modular (mem_of (repeat Byte.xff 10 ++ [Byte.x01]))
    uint64_t (new_pbf 0 11) =
    (Fail (Throw varint_too_long_exception), advance (new_pbf 0 11) 10, addrs 0 10).
Proof.
  apply (varint_rejects_ten_groups true overshift_modular
           (mem_of (repeat Byte.xff 10 ++ [Byte.x01])) uint64_t (new_pbf 0 11)).
  - cbn. lia.
  - right. cbn. auto.
  - cbn. lia.
  - cbn [data new_pbf]. intros a Ha.
    assert (H : a = 0 \/ a = 1 \/ a = 2 \/ a = 3 \/ a = 4 \/
                a = 5 \/ a = 6 \/ a = 7 \/ a = 8 \/ a = 9) by lia.
    repeat (destruct H as [-> | H]; [reflexivity|]). subst a. reflexivity.
Defined.

(** ** Truncation to the result type *)

(** X3. On a complete varint of at most ten bytes, [varint<T>] returns the
    value [varint_value bs] of the bytes converted to [T] (reduced modulo
    [2^bits] when [T] is unsigned, the higher bits dropped) in two cases:
    no payload group is shifted by the width of [T] or more (at most five
    bytes into a 32-bit type, every varint into a 64-bit type), or the
    platform shifts the bits out then. *)
Theorem varint_truncates_in_range debug overshift mem T bs c :
  7 <= bits T ->
  wire_type_in debug c [0; 2] ->
  is_varint bs = true ->
  (List.length bs <= 10)%nat ->
  7 * Z.of_nat (List.length bs) < bits T + 7 \/ shifts_out overshift T ->
  stored mem (data c) bs ->
  data c + Z.of_nat (List.length bs) <= end_ c ->
  varint debug overshift mem T c =
    (Ok (wrap T (varint_value bs)), advance c (Z.of_nat (List.length bs)),
     addrs (data c) (List.length bs)) /\
  (is_signed T = false ->
   wrap T (varint_value bs) = varint_value bs mod 2 ^ bits T).
Proof.
  intros Hw Hwt Hv Hlen Hshift Hst Hroom. split.
  - rewrite <- (accumulate_value overshift) by assumption. now apply varint_decode.
  - intros Hs. now apply wrap_unsigned.
Qed.

(** Five bytes into [uint32_t]: the value [2^35 - 1] loses its three
    highest bits; ten bytes into [uint64_t]: the value [2^70 - 1] loses
    its six highest bits. *)
Lemma varint_truncates_examples :
  varint true overshift_modular
    (mem_of [Byte.xff; Byte.xff; Byte.xff; Byte.xff; Byte.x7f])
    uint32_t (new_pbf 0 5) =
    (Ok (34359738367 mod 2 ^ 32), mk_pbf 5 5 0 0, [0; 1; 2; 3; 4]) /\
  varint true overshift_modular
    (mem_of (repeat Byte.xff 9 ++ [Byte.x7f]))
    uint64_t (new_pbf 0 10) =
    (Ok (1180591620717411303423 mod 2 ^ 64), mk_pbf 10 10 0 0,
     [0; 1; 2; 3; 4; 5; 6; 7; 8; 9]).
Proof. split; vm_compute; reflexivity. Qed.

(** C5 at the input where the code departs from it: the six bytes
    [80 80 80 80 80 01] encode [2^35], and [2^35 mod 2^32] is 0.
    [varint<uint32_t>] shifts the sixth payload group by 35 in a 32-bit
    type, which C++ leaves undefined.  Where the shifter takes the count
    modulo 32 the result is 8; where it shifts every bit out the result
    is 0. *)
Theorem varint_uint32_six_bytes :
  let bs := [Byte.x80; Byte.x80; Byte.x80; Byte.x80; Byte.x80; Byte.x01] in
  is_varint bs = true /\
  varint_value bs = 2 ^ 35 /\
  varint_value bs mod 2 ^ 32 = 0 /\
  varint true overshift_modular (mem_of bs) uint32_t (new_pbf 0 6) =
    (Ok 8, mk_pbf 6 6 0 0, [0; 1; 2; 3; 4; 5]) /\
  varint true overshift_zero (mem_of bs) uint32_t (new_pbf 0 6) =
    (Ok 0, mk_pbf 6 6 0 0, [0; 1; 2; 3; 4; 5]).
Proof. repeat split; vm_compute; reflexivity. Qed.

(** ** The cursor stays inside its buffer *)

(** X4. Every member function started with [data <= end] leaves
    [data <= end] and keeps [end]; and it loads bytes of [[data, end)] only, [boolean]
    with this proviso: assertions are compiled out, or a byte is left. *)
Theorem operations_in_bounds debug overshift mem c :
  data c <= end_ c ->
  in_bounds c (next debug overshift mem c) /\
  (forall t, in_bounds c (next_tag debug overshift mem t c)) /\
  (forall T, in_bounds c (varint debug overshift mem T c)) /\
  (forall T, in_bounds c (svarint debug overshift mem T c)) /\
  (forall bytes, 0 <= bytes < 2 ^ 32 -> in_bounds c (fixed debug mem bytes c)) /\
  in_bounds c (float32 debug mem c) /\
  in_bounds c (float64 debug mem c) /\
  in_bounds c (string_ debug overshift mem c) /\
  (debug = false \/ data c < end_ c -> in_bounds c (boolean debug mem c)) /\
  (end_ (cursor_of (boolean debug mem c)) = end_ c /\
   data c <= data (cursor_of (boolean debug mem c)) <= end_ c) /\
  in_bounds c (message debug overshift mem c) /\
  in_bounds c (skip debug overshift mem c) /\
  (forall val, in_bounds c (skipValue debug overshift mem val c)) /\
  (forall bytes, 0 <= bytes -> in_bounds c (skipBytes bytes c)).
Proof.
  intros Hc.
  split; [now apply next_in_bounds|].
  split; [intros; now apply next_tag_in_bounds|].
  split; [intros; now apply varint_in_bounds|].
  split; [intros; now apply svarint_in_bounds|].
  split; [intros; now apply fixed_in_bounds|].
  split; [now apply float32_in_bounds|].
  split; [now apply float64_in_bounds|].
  split; [now apply string_in_bounds|].
  split; [intros; now apply boolean_in_bounds|].
  split; [now apply boolean_cursor|].
  split; [now apply message_in_bounds|].
  split; [now apply skip_in_bounds|].
  split; [intros; now apply skipValue_in_bounds|].
  intros; now apply skipBytes_in_bounds.
Qed.

(** C2 at the input where the code departs from it: the buffer is the one
    byte [0x08], the key of a varint field whose value is missing.  After
    [next] the cursor is exhausted ([data = end = 1]); [boolean], with
    assertions on, then loads the byte at address 1, the byte at [end],
    before it fails with the end-of-buffer exception. *)
Theorem boolean_loads_byte_at_end :
  next true overshift_modular (mem_of [Byte.x08]) (new_pbf 0 1) =
    (Ok true, mk_pbf 1 1 8 1, [0]) /\
  boolean true (mem_of [Byte.x08]) (mk_pbf 1 1 8 1) =
    (Fail (Throw end_of_buffer_exception), mk_pbf 1 1 8 1, [1]) /\
  ~ Forall (fun a => a < end_ (mk_pbf 1 1 8 1))
      (reads_of (boolean true (mem_of [Byte.x08]) (mk_pbf 1 1 8 1))).
Proof.
  split; [vm_compute; reflexivity|].
  split; [vm_compute; reflexivity|].
  intros Hr.
  replace (reads_of (boolean true (mem_of [Byte.x08]) (mk_pbf 1 1 8 1)))
    with [1] in Hr by (vm_compute; reflexivity).
  inversion Hr as [|a l Ha Hl]; subst. cbn in Ha. lia.
Qed.

(** ** Embedded messages *)

(** C6, as stated, refuted: the length is read into a [uint32_t].  The
    length varint [82 80 80 80 10] encodes [2^32 + 2]; with more bytes than
    that left behind it, [message] returns a cursor over two bytes, the
    length modulo [2^32], and leaves the parent two bytes behind the
    length.  No shift reaches 32 here: every platform agrees. *)
Lemma message_length_above_32_bits :
  let bs := [Byte.x82; Byte.x80; Byte.x80; Byte.x80; Byte.x10] in
  let m := mem_of ([Byte.x0a] ++ bs ++ [Byte.x68; Byte.x69; Byte.x10; Byte.x01]) in
  let c := mk_pbf 1 (2 ^ 33) 10 1 in
  is_varint bs = true /\
  stored m (data c) bs /\
  varint_value bs = 2 ^ 32 + 2 /\
  data c + Z.of_nat (List.length bs) + varint_value bs <= end_ c /\
  message true overshift_modular m c =
    (Ok (mk_pbf 6 8 0 0), mk_pbf 8 (2 ^ 33) 10 1, [1; 2; 3; 4; 5]) /\
  message true overshift_zero m c =
    (Ok (mk_pbf 6 8 0 0), mk_pbf 8 (2 ^ 33) 10 1, [1; 2; 3; 4; 5]) /\
  6 + varint_value bs <> 8.
Proof.
  cbv zeta. split; [reflexivity|]. split; [cbn; repeat split|].
  split; [vm_compute; reflexivity|]. split; [vm_compute; discriminate|].
  split; [vm_compute; reflexivity|]. split; [vm_compute; reflexivity|].
  vm_compute. discriminate.
Qed.

(** C6, amended: on a field of wire type 2 whose length varint [bs], the
    bytes at the cursor, has a value [L] below [2^32] and at most five
    bytes (or any number up to ten where a shift by 32 or more leaves no
    bit), with [L] bytes left after it from position [pos] on, [message]
    returns a new cursor over [[pos, pos+L)] and leaves the parent at
    [pos+L], having loaded the bytes of the length only; whatever is then
    run on the returned cursor, the parent stays there. *)
Theorem message_covers_payload debug overshift mem bs c :
  wire_type_in debug c [2] ->
  is_varint bs = true ->
  (List.length bs <= 10)%nat ->
  (List.length bs <= 5)%nat \/ shifts_out overshift uint32_t ->
  stored mem (data c) bs ->
  varint_value bs < 2 ^ 32 ->
  data c + Z.of_nat (List.length bs) + varint_value bs <= end_ c ->
  message debug overshift mem c =
    (Ok (mk_pbf (data c + Z.of_nat (List.length bs))
           (data c + Z.of_nat (List.length bs) + varint_value bs) 0 0),
     advance c (Z.of_nat (List.length bs) + varint_value bs),
     addrs (data c) (List.length bs)) /\
  forall (A : Type) (k : M A),
    message_then debug overshift mem k c =
      (Ok (k (mk_pbf (data c + Z.of_nat (List.length bs))
                (data c + Z.of_nat (List.length bs) + varint_value bs) 0 0)),
       advance c (Z.of_nat (List.length bs) + varint_value bs),
       addrs (data c) (List.length bs)).
Proof.
  intros Hwt Hv Hlen Hshift Hs HL Hroom.
  pose proof (varint_value_nonneg bs) as H0.
  destruct (length_on_wire debug overshift mem bs c Hwt Hv Hlen Hshift Hs
              ltac:(lia) HL) as (Ev & Ha & Hwrap).
  assert (Hm : message debug overshift mem c =
               (Ok (mk_pbf (data c + Z.of_nat (List.length bs))
                      (data c + Z.of_nat (List.length bs) + varint_value bs) 0 0),
                advance c (Z.of_nat (List.length bs) + varint_value bs),
                addrs (data c) (List.length bs))).
  { rewrite message_eq, Ev, Ha, Hwrap. cbn [data end_ advance].
    replace (_ >? _) with false
      by (symmetry; rewrite Z.gtb_ltb; apply Z.ltb_ge; lia).
    now rewrite advance_advance. }
  split; [exact Hm|].
  intros A k. unfold message_then.
  rewrite (bind_ok _ _ _ _ _ _ Hm).
  unfold prepend_reads, ret; cbn [outcome_of cursor_of reads_of fst snd].
  now rewrite app_nil_r.
Qed.

Lemma message_covers_payload_witness :
  message true overshift_modular
    (mem_of [Byte.x0a; Byte.x02; Byte.x08; Byte.x01; Byte.x10; Byte.x01])
    (mk_pbf 1 6 10 1) =
    (Ok (mk_pbf (1 + 1) (1 + 1 + 2) 0 0), advance (mk_pbf 1 6 10 1) (1 + 2), [1]) /\
  forall (A : Type) (k : M A),
    message_then true overshift_modular
      (mem_of [Byte.x0a; Byte.x02; Byte.x08; Byte.x01; Byte.x10; Byte.x01])
      k (mk_pbf 1 6 10 1) =
      (Ok (k (mk_pbf (1 + 1) (1 + 1 + 2) 0 0)),
       advance (mk_pbf 1 6 10 1) (1 + 2), [1]).
Proof.
  apply (message_covers_payload true overshift_modular
           (mem_of [Byte.x0a; Byte.x02; Byte.x08; Byte.x01; Byte.x10; Byte.x01])
           [Byte.x02] (mk_pbf 1 6 10 1)).
  - right. cbn. auto.
  - reflexivity.
  - cbn. lia.
  - left. cbn. lia.
  - cbn. repeat split.
  - vm_compute. reflexivity.
  - vm_compute. discriminate.
Defined.

(** ** Filtered advance *)

(** X5. The loop of [next(tag)], relative to [next] and [skip]: it always
    comes back.  It returns true exactly when, after advancing onto and
    skipping zero or more fields whose tag is not the requested one, [next]
    lands on a field whose tag is: the cursor is then where that call of
    [next] left it, on the value of the first such field.  It returns
    false exactly when it skipped fields whose tag is not the requested
    one until nothing was left: the cursor is false as a boolean. *)
Theorem next_tag_scans debug overshift mem t c :
  outcome_of (next_tag debug overshift mem t c) <> Fail OutOfFuel /\
  (forall c' r,
     next_tag debug overshift mem t c = (Ok true, c', r) <->
     exists c0 r0 r1,
       skipped debug overshift mem t c c0 r0 /\
       next debug overshift mem c0 = (Ok true, c', r1) /\
       tag c' = t /\ r = r0 ++ r1) /\
  (forall c' r,
     next_tag debug overshift mem t c = (Ok false, c', r) <->
     skipped debug overshift mem t c c' r /\ to_bool c' = false).
Proof.
  split; [apply next_tag_total|]. split; intros c' r; unfold to_bool; split.
  - intros E. unfold next_tag in E. rewrite bind_get in E.
    exact (next_tag_loop_sound debug overshift mem t _ c true c' r E).
  - intros (c0 & r0 & r1 & Hsk & Hn & Ht & ->).
    rewrite (next_tag_skipped debug overshift mem t c c0 r0 Hsk).
    rewrite (next_tag_unfold debug overshift mem t c0), Hn.
    apply Z.eqb_eq in Ht. now rewrite Ht.
  - intros E. unfold next_tag in E. rewrite bind_get in E.
    destruct (next_tag_loop_sound debug overshift mem t _ c false c' r E)
      as [Hsk Hend].
    split; [exact Hsk | now apply Z.ltb_ge].
  - intros [Hsk Hend].
    rewrite (next_tag_skipped debug overshift mem t c c' r Hsk).
    rewrite (next_tag_unfold debug overshift mem t c'), next_eq, Hend.
    unfold prepend_reads; cbn. now rewrite app_nil_r.
Qed.

(** The scenario of the specification with varint fields of the tags 1, 5
    and 7: [next(5)] lands on the value of the field with tag 5, the field
    with tag 1 discarded; [next(6)] reports that no field is left, every
    field discarded. *)
Lemma next_tag_scenario :
  let m := mem_of [Byte.x08; Byte.x01; Byte.x28; Byte.x02; Byte.x38; Byte.x03] in
  next_tag true overshift_modular m 5 (new_pbf 0 6) =
    (Ok true, mk_pbf 3 6 40 5, [0; 1; 2]) /\
  next_tag true overshift_modular m 6 (new_pbf 0 6) =
    (Ok false, mk_pbf 6 6 56 7, [0; 1; 2; 3; 4; 5]).
Proof. split; vm_compute; reflexivity. Qed.

(** C7 at the input where the code departs from it: a 32-bit fixed field
    with tag 1 and then a varint field with tag 2.  With assertions on,
    [next(2)] advances onto the first field, skips its four bytes, and
    stops on the assertion of [varint] when it advances again, the wire
    type still being 5; it does not land on the field with tag 2.  With
    assertions compiled out it does. *)
Theorem next_tag_stops_on_assertion :
  let m := mem_of [Byte.x0d; Byte.x01; Byte.x00; Byte.x00; Byte.x00;
                   Byte.x10; Byte.x01] in
  next_tag true overshift_modular m 2 (new_pbf 0 7) =
    (Fail (AssertionFailed "not a varint"), mk_pbf 5 7 13 1, [0]) /\
  next_tag false overshift_modular m 2 (new_pbf 0 7) =
    (Ok true, mk_pbf 6 7 16 2, [0; 5]).
Proof. split; vm_compute; reflexivity. Qed.

(** ** Unknown wire types *)

(** C8: when the wire type of the last key is none of 0, 1, 2, 5, [skip]
    fails with the unknown-field-type exception; the cursor is unchanged
    and no byte was loaded. *)
Theorem skip_unknown_wire_type debug overshift mem c :
  ~ In (wire_type c) [0; 1; 2; 5] ->
  skip debug overshift mem c = (Fail (Throw unknown_field_type_exception), c, []).
Proof.
  intros H. unfold skip. rewrite bind_get.
  now rewrite skipValue_unknown.
Qed.

Lemma skip_unknown_wire_type_witness :
  skip true overshift_modular (mem_of [Byte.x0b; Byte.x01]) (mk_pbf 1 2 11 1) =
    (Fail (Throw unknown_field_type_exception), mk_pbf 1 2 11 1, []).
Proof.
  apply (skip_unknown_wire_type true overshift_modular
           (mem_of [Byte.x0b; Byte.x01]) (mk_pbf 1 2 11 1)).
  cbn. intros [H | [H | [H | [H | []]]]]; discriminate.
Defined.

(** ** Booleans *)

(** C9, as stated, refuted: with assertions compiled out, [boolean] on the
    byte [0x80], whose high bit is set, reports no failure: it consumes
    that byte and returns true. *)
Lemma boolean_accepts_continuation_byte :
  continues Byte.x80 = true /\
  boolean false (mem_of [Byte.x08; Byte.x80; Byte.x01]) (mk_pbf 1 3 8 1) =
    (Ok true, mk_pbf 2 3 8 1, [1]).
Proof. split; vm_compute; reflexivity. Qed.

(** C9, amended: on a field of wire type 0 with a byte left, if that byte
    has its high bit set and assertions are enabled, [boolean] stops on
    the failed assertion "not a 1 byte varint" and consumes nothing; if
    the high bit is clear, [boolean] consumes exactly that byte and
    returns true if and only if the byte is not zero. *)
Theorem boolean_one_byte debug mem c :
  wire_type_in debug c [0] ->
  data c < end_ c ->
  (continues (mem (data c)) = true -> debug = true ->
   boolean debug mem c =
     (Fail (AssertionFailed "not a 1 byte varint"), c, [data c])) /\
  (continues (mem (data c)) = false ->
   boolean debug mem c =
     (Ok (negb (byte.unsigned (mem (data c)) =? 0)), advance c 1,
      if debug then [data c; data c] else [data c])).
Proof.
  intros Hwt Hd. rewrite boolean_eq.
  replace (debug && negb (is_wire_type c 0)) with false.
  2:{ destruct Hwt as [-> | Hwt]; [reflexivity|].
      cbn [In] in Hwt. destruct Hwt as [Hwt | []].
      unfold is_wire_type. rewrite <- Hwt. now rewrite andb_false_r. }
  replace (data c + 1 >? end_ c) with false
    by (symmetry; rewrite Z.gtb_ltb; apply Z.ltb_ge; lia).
  split.
  - intros -> ->. reflexivity.
  - intros ->. now rewrite andb_false_r.
Qed.

Lemma boolean_one_byte_witness :
  boolean true (mem_of [Byte.x08; Byte.x80; Byte.x01]) (mk_pbf 1 3 8 1) =
    (Fail (AssertionFailed "not a 1 byte varint"), mk_pbf 1 3 8 1, [1]) /\
  boolean true (mem_of [Byte.x10; Byte.x01]) (mk_pbf 1 2 16 2) =
    (Ok true, mk_pbf 2 2 16 2, [1; 1]).
Proof.
  split.
  - apply (boolean_one_byte true (mem_of [Byte.x08; Byte.x80; Byte.x01])
             (mk_pbf 1 3 8 1)).
    + right. cbn. auto.
    + cbn. lia.
    + reflexivity.
    + reflexivity.
  - apply (boolean_one_byte true (mem_of [Byte.x10; Byte.x01]) (mk_pbf 1 2 16 2)).
    + right. cbn. auto.
    + cbn. lia.
    + reflexivity.
Defined.

(** ** The assertion of [varint] under [next] *)

(** C10 at the input where the code departs from it: a 32-bit fixed field
    (key [0x0d]: field 1, wire type 5) followed by a varint field.  With
    assertions on, [next] and [fixed<uint32_t, 4>] read the first field,
    and the second [next] stops on the assertion of [varint] that the wire
    type is 0 or 2, the wire type still being 5.  Skipping the field
    instead of reading it leaves the same cursor. *)
Theorem next_after_fixed_field_asserts :
  let m := mem_of [Byte.x0d; Byte.x01; Byte.x00; Byte.x00; Byte.x00;
                   Byte.x10; Byte.x01] in
  next true overshift_modular m (new_pbf 0 7) = (Ok true, mk_pbf 1 7 13 1, [0]) /\
  fixed true m 4 (mk_pbf 1 7 13 1) =
    (Ok [Byte.x01; Byte.x00; Byte.x00; Byte.x00], mk_pbf 5 7 13 1, [1; 2; 3; 4]) /\
  skip true overshift_modular m (mk_pbf 1 7 13 1) = (Ok tt, mk_pbf 5 7 13 1, []) /\
  is_wire_type (mk_pbf 5 7 13 1) 0 || is_wire_type (mk_pbf 5 7 13 1) 2 = false /\
  next true overshift_modular m (mk_pbf 5 7 13 1) =
    (Fail (AssertionFailed "not a varint"), mk_pbf 5 7 13 1, []).
Proof. repeat split; vm_compute; reflexivity. Qed.

(** * Further properties of the code *)

(** ** Helpers *)

Lemma stored_bytes mem bs : forall p,
  stored mem p bs -> map mem (addrs p (List.length bs)) = bs.
Proof.
  induction bs as [|b bs IH]; intros p Hs; cbn [List.length addrs map];
    [reflexivity|].
  destruct Hs as [Hb Hs]. rewrite Hb. f_equal. now apply IH.
Qed.

Lemma stored_app mem a b : forall p,
  stored mem p (a ++ b) <->
  stored mem p a /\ stored mem (p + Z.of_nat (List.length a)) b.
Proof.
  induction a as [|x a IH]; intros p; cbn [app stored List.length].
  - change (Z.of_nat 0) with 0. rewrite Z.add_0_r. tauto.
  - rewrite (IH (p + 1)), Nat2Z.inj_succ.
    replace (p + 1 + Z.of_nat (List.length a))
      with (p + Z.succ (Z.of_nat (List.length a))) by lia.
    tauto.
Qed.

Lemma wire_type_assert debug c t :
  wire_type_in debug c [t] -> debug && negb (is_wire_type c t) = false.
Proof.
  intros [-> | H]; [reflexivity|]. cbn [In] in H. destruct H as [H | []].
  unfold is_wire_type. rewrite <- H, Z.eqb_refl. apply andb_false_r.
Qed.

(** [fixed], case by case. *)
Lemma fixed_eq debug mem bytes c :
  0 <= bytes < 2 ^ 32 ->
  fixed debug mem bytes c =
  if debug && negb ((is_wire_type c 5 && (bytes =? 4))
                    || (is_wire_type c 1 && (bytes =? 8)))
  then (Fail (AssertionFailed "not a fixed of right size"), c, [])
  else if data c + bytes >? end_ c
  then (Fail (Throw end_of_buffer_exception), c, [])
  else (Ok (map mem (addrs (data c) (Z.to_nat bytes))), advance c bytes,
        addrs (data c) (Z.to_nat bytes)).
Proof.
  intros Hb. unfold fixed.
  destruct (debug && negb ((is_wire_type c 5 && (bytes =? 4))
                           || (is_wire_type c 1 && (bytes =? 8)))) eqn:Ea.
  { apply bind_fail. rewrite assert_pure. now rewrite Ea. }
  rewrite (bind_ok _ _ c tt c []) by (rewrite assert_pure; now rewrite Ea).
  rewrite prepend_reads_nil.
  rewrite wrap_uint32, Z.mod_small by lia.
  destruct (data c + bytes >? end_ c) eqn:Es.
  - apply bind_fail. rewrite skipBytes_eq. now rewrite Es.
  - rewrite (bind_ok _ _ c tt (advance c bytes) [])
      by (rewrite skipBytes_eq; now rewrite Es).
    rewrite prepend_reads_nil, bind_get, load_range_eq.
    cbn [data advance]. replace (data c + bytes - bytes) with (data c) by lia.
    reflexivity.
Qed.

Lemma float32_eq debug mem c :
  float32 debug mem c =
  if debug && negb (is_wire_type c 5)
  then (Fail (AssertionFailed "not a 32-bit fixed"), c, [])
  else if data c + 4 >? end_ c
  then (Fail (Throw end_of_buffer_exception), c, [])
  else (Ok (map mem (addrs (data c) 4)), advance c 4, addrs (data c) 4).
Proof.
  unfold float32.
  destruct (debug && negb (is_wire_type c 5)) eqn:Ea.
  { apply bind_fail. rewrite assert_pure. now rewrite Ea. }
  rewrite (bind_ok _ _ c tt c []) by (rewrite assert_pure; now rewrite Ea).
  rewrite prepend_reads_nil, fixed_eq by lia.
  replace (debug && negb ((is_wire_type c 5 && (4 =? 4))
                          || (is_wire_type c 1 && (4 =? 8)))) with false.
  - reflexivity.
  - destruct debug; [|reflexivity]. cbn [andb] in *.
    apply negb_false_iff in Ea. rewrite Ea. reflexivity.
Qed.

Lemma float64_eq debug mem c :
  float64 debug mem c =
  if debug && negb (is_wire_type c 1)
  then (Fail (AssertionFailed "not a 64-bit fixed"), c, [])
  else if data c + 8 >? end_ c
  then (Fail (Throw end_of_buffer_exception), c, [])
  else (Ok (map mem (addrs (data c) 8)), advance c 8, addrs (data c) 8).
Proof.
  unfold float64.
  destruct (debug && negb (is_wire_type c 1)) eqn:Ea.
  { apply bind_fail. rewrite assert_pure. now rewrite Ea. }
  rewrite (bind_ok _ _ c tt c []) by (rewrite assert_pure; now rewrite Ea).
  rewrite prepend_reads_nil, fixed_eq by lia.
  replace (debug && negb ((is_wire_type c 5 && (8 =? 4))
                          || (is_wire_type c 1 && (8 =? 8)))) with false.
  - reflexivity.
  - destruct debug; [|reflexivity]. cbn [andb] in *.
    apply negb_false_iff in Ea. rewrite Ea.
    now rewrite andb_false_r.
Qed.

(** [string], case by case. *)
Lemma string_eq debug overshift mem c :
  string_ debug overshift mem c =
  if debug && negb (is_wire_type c 2)
  then (Fail (AssertionFailed "not a string"), c, [])
  else
    match varint debug overshift mem uint32_t c with
    | (Ok v, c1, r1) =>
        if data c1 + wrap uint32_t v >? end_ c1
        then (Fail (Throw end_of_buffer_exception), c1, r1)
        else (Ok (map mem (addrs (data c1) (Z.to_nat (wrap uint32_t v)))),
              advance c1 (wrap uint32_t v),
              r1 ++ addrs (data c1) (Z.to_nat (wrap uint32_t v)))
    | (Fail f, c1, r1) => (Fail f, c1, r1)
    end.
Proof.
  unfold string_.
  destruct (debug && negb (is_wire_type c 2)) eqn:Ea.
  { apply bind_fail. rewrite assert_pure. now rewrite Ea. }
  rewrite (bind_ok _ _ c tt c []) by (rewrite assert_pure; now rewrite Ea).
  rewrite prepend_reads_nil.
  destruct (varint debug overshift mem uint32_t c) as [[[v|f] c1] r1] eqn:E.
  - rewrite (bind_ok _ _ _ _ _ _ E). rewrite bind_get.
    destruct (data c1 + wrap uint32_t v >? end_ c1) eqn:Es.
    + rewrite (bind_fail _ _ c1 (Throw end_of_buffer_exception) c1 [])
        by (rewrite skipBytes_eq; now rewrite Es).
      unfold prepend_reads; cbn. now rewrite app_nil_r.
    + rewrite (bind_ok _ _ c1 tt (advance c1 (wrap uint32_t v)) [])
        by (rewrite skipBytes_eq; now rewrite Es).
      rewrite prepend_reads_nil, load_range_eq. reflexivity.
  - now apply bind_fail.
Qed.

(** [skip], wire type by wire type. *)
Lemma skip_varint debug overshift mem c :
  wire_type c = 0 ->
  skip debug overshift mem c =
  (discard (outcome_of (varint debug overshift mem uint32_t c)),
   cursor_of (varint debug overshift mem uint32_t c),
   reads_of (varint debug overshift mem uint32_t c)).
Proof.
  intros Hw. unfold skip. rewrite bind_get. unfold skipValue.
  unfold wire_type in Hw. rewrite Hw.
  destruct (varint debug overshift mem uint32_t c) as [[[v|f] c1] r1] eqn:E.
  - rewrite (bind_ok _ _ _ _ _ _ E). unfold prepend_reads, ret; cbn.
    now rewrite app_nil_r.
  - now rewrite (bind_fail _ _ _ _ _ _ E).
Qed.

Lemma skip_fixed64 debug overshift mem c :
  wire_type c = 1 -> skip debug overshift mem c = skipBytes 8 c.
Proof.
  intros Hw. unfold skip. rewrite bind_get. unfold skipValue.
  unfold wire_type in Hw. now rewrite Hw.
Qed.

Lemma skip_fixed32 debug overshift mem c :
  wire_type c = 5 -> skip debug overshift mem c = skipBytes 4 c.
Proof.
  intros Hw. unfold skip. rewrite bind_get. unfold skipValue.
  unfold wire_type in Hw. now rewrite Hw.
Qed.

Lemma skip_length_delimited debug overshift mem c :
  wire_type c = 2 ->
  skip debug overshift mem c =
  match varint debug overshift mem uint32_t c with
  | (Ok v, c1, r1) =>
      if data c1 + wrap uint32_t v >? end_ c1
      then (Fail (Throw end_of_buffer_exception), c1, r1)
      else (Ok tt, advance c1 (wrap uint32_t v), r1)
  | (Fail f, c1, r1) => (Fail f, c1, r1)
  end.
Proof.
  intros Hw. unfold skip. rewrite bind_get. unfold skipValue.
  unfold wire_type in Hw. rewrite Hw.
  destruct (varint debug overshift mem uint32_t c) as [[[v|f] c1] r1] eqn:E.
  - rewrite (bind_ok _ _ _ _ _ _ E), skipBytes_eq.
    destruct (data c1 + wrap uint32_t v >? end_ c1);
      unfold prepend_reads; cbn; now rewrite app_nil_r.
  - now rewrite (bind_fail _ _ _ _ _ _ E).
Qed.


(** ** Fixed-width values *)

(** X6. [fixed<T, bytes>()] on a cursor with the bytes [bs] ahead of it,
    all of them before [end]: it returns exactly those bytes, the object
    representation of the value in memory order with no byte swapped, moves
    the cursor past them and loads nothing else.  Where asserts are compiled
    in, the wire type has to be 5 with four bytes or 1 with eight.
    [float32()] and [float64()] are this at four and at eight bytes. *)
Theorem fixed_returns_bytes debug mem bs c :
  debug = false \/
    (wire_type c = 5 /\ List.length bs = 4%nat) \/
    (wire_type c = 1 /\ List.length bs = 8%nat) ->
  Z.of_nat (List.length bs) < 2 ^ 32 ->
  stored mem (data c) bs ->
  data c + Z.of_nat (List.length bs) <= end_ c ->
  fixed debug mem (Z.of_nat (List.length bs)) c =
    (Ok bs, advance c (Z.of_nat (List.length bs)),
     addrs (data c) (List.length bs)) /\
  (List.length bs = 4%nat ->
   float32 debug mem c = (Ok bs, advance c 4, addrs (data c) 4)) /\
  (List.length bs = 8%nat ->
   float64 debug mem c = (Ok bs, advance c 8, addrs (data c) 8)).
Proof.
  intros Hpre Hlen Hs Hroom.
  pose proof (stored_bytes mem bs (data c) Hs) as Hb.
  split; [|split].
  - rewrite fixed_eq by lia.
    replace (debug && negb _) with false.
    2:{ destruct Hpre as [-> | [[Hw Hl] | [Hw Hl]]]; [reflexivity| |];
          unfold is_wire_type; rewrite Hw, Hl; cbn; now rewrite andb_false_r. }
    replace (data c + Z.of_nat (List.length bs) >? end_ c) with false
      by (symmetry; rewrite Z.gtb_ltb; apply Z.ltb_ge; lia).
    rewrite Nat2Z.id. now rewrite Hb.
  - intros Hl. rewrite Hl in *. rewrite float32_eq.
    replace (debug && negb (is_wire_type c 5)) with false.
    2:{ destruct Hpre as [-> | [[Hw _] | [_ Hl']]];
          [reflexivity| |discriminate].
        unfold is_wire_type. rewrite Hw. now rewrite andb_false_r. }
    replace (data c + 4 >? end_ c) with false
      by (symmetry; rewrite Z.gtb_ltb; apply Z.ltb_ge; lia).
    now rewrite Hb.
  - intros Hl. rewrite Hl in *. rewrite float64_eq.
    replace (debug && negb (is_wire_type c 1)) with false.
    2:{ destruct Hpre as [-> | [[_ Hl'] | [Hw _]]];
          [reflexivity|discriminate|].
        unfold is_wire_type. rewrite Hw. now rewrite andb_false_r. }
    replace (data c + 8 >? end_ c) with false
      by (symmetry; rewrite Z.gtb_ltb; apply Z.ltb_ge; lia).
    now rewrite Hb.
Qed.

Lemma fixed_returns_bytes_witness :
  fixed true
    (mem_of [Byte.x0d; Byte.x00; Byte.x00; Byte.x80; Byte.x3f; Byte.x10])
    4 (mk_pbf 1 6 13 1) =
    (Ok [Byte.x00; Byte.x00; Byte.x80; Byte.x3f], mk_pbf 5 6 13 1, [1; 2; 3; 4]) /\
  float32 true
    (mem_of [Byte.x0d; Byte.x00; Byte.x00; Byte.x80; Byte.x3f; Byte.x10])
    (mk_pbf 1 6 13 1) =
    (Ok [Byte.x00; Byte.x00; Byte.x80; Byte.x3f], mk_pbf 5 6 13 1, [1; 2; 3; 4]) /\
  float64 true
    (mem_of [Byte.x09; Byte.x00; Byte.x00; Byte.x00; Byte.x00; Byte.x00;
             Byte.x00; Byte.xf0; Byte.x3f])
    (mk_pbf 1 9 9 1) =
    (Ok [Byte.x00; Byte.x00; Byte.x00; Byte.x00; Byte.x00; Byte.x00;
         Byte.xf0; Byte.x3f], mk_pbf 9 9 9 1, [1; 2; 3; 4; 5; 6; 7; 8]).
Proof.
  destruct (fixed_returns_bytes true
              (mem_of [Byte.x0d; Byte.x00; Byte.x00; Byte.x80; Byte.x3f; Byte.x10])
              [Byte.x00; Byte.x00; Byte.x80; Byte.x3f] (mk_pbf 1 6 13 1))
    as (Hfixed & Hfloat32 & _).
  { right. left. split; reflexivity. }
  { cbn. lia. }
  { cbn. repeat split. }
  { cbn. lia. }
  destruct (fixed_returns_bytes true
              (mem_of [Byte.x09; Byte.x00; Byte.x00; Byte.x00; Byte.x00; Byte.x00;
                       Byte.x00; Byte.xf0; Byte.x3f])
              [Byte.x00; Byte.x00; Byte.x00; Byte.x00; Byte.x00; Byte.x00;
               Byte.xf0; Byte.x3f] (mk_pbf 1 9 9 1))
    as (_ & _ & Hfloat64).
  { right. right. split; reflexivity. }
  { cbn. lia. }
  { cbn. repeat split. }
  { cbn. lia. }
  split; [exact Hfixed|].
  split; [apply Hfloat32 | apply Hfloat64]; reflexivity.
Defined.

(** X7. A fixed-width value that the buffer cuts short: when fewer than
    [bytes] bytes are left, [fixed<T, bytes>()] throws the end-of-buffer
    exception with the cursor where it was and not one byte loaded, and so
    do [float32()] and [float64()] at four and at eight bytes. *)
Theorem fixed_end_of_buffer debug mem bytes c :
  0 <= bytes < 2 ^ 32 ->
  end_ c < data c + bytes ->
  debug = false \/ (wire_type c = 5 /\ bytes = 4) \/
    (wire_type c = 1 /\ bytes = 8) ->
  fixed debug mem bytes c = (Fail (Throw end_of_buffer_exception), c, []) /\
  (bytes = 4 ->
   float32 debug mem c = (Fail (Throw end_of_buffer_exception), c, [])) /\
  (bytes = 8 ->
   float64 debug mem c = (Fail (Throw end_of_buffer_exception), c, [])).
Proof.
  intros Hb Hshort Hpre.
  assert (Ha : debug && negb ((is_wire_type c 5 && (bytes =? 4))
                              || (is_wire_type c 1 && (bytes =? 8))) = false).
  { destruct Hpre as [-> | [[Hw Hl] | [Hw Hl]]]; [reflexivity| |];
      unfold is_wire_type; rewrite Hw, Hl; cbn; now rewrite andb_false_r. }
  assert (Hs : (data c + bytes >? end_ c) = true)
    by (rewrite Z.gtb_ltb; apply Z.ltb_lt; lia).
  repeat split.
  - rewrite fixed_eq by lia. now rewrite Ha, Hs.
  - intros ->. rewrite float32_eq, Hs.
    replace (debug && negb (is_wire_type c 5)) with false; [reflexivity|].
    destruct Hpre as [-> | [[Hw _] | [_ Hl]]]; [reflexivity| |lia].
    unfold is_wire_type. rewrite Hw. now rewrite andb_false_r.
  - intros ->. rewrite float64_eq, Hs.
    replace (debug && negb (is_wire_type c 1)) with false; [reflexivity|].
    destruct Hpre as [-> | [[_ Hl] | [Hw _]]]; [reflexivity|lia|].
    unfold is_wire_type. rewrite Hw. now rewrite andb_false_r.
Qed.

Lemma fixed_end_of_buffer_witness :
  fixed true (mem_of [Byte.x0d; Byte.x01; Byte.x02; Byte.x03]) 4
    (mk_pbf 1 4 13 1) =
    (Fail (Throw end_of_buffer_exception), mk_pbf 1 4 13 1, []) /\
  float32 true (mem_of [Byte.x0d; Byte.x01; Byte.x02; Byte.x03])
    (mk_pbf 1 4 13 1) =
    (Fail (Throw end_of_buffer_exception), mk_pbf 1 4 13 1, []).
Proof.
  destruct (fixed_end_of_buffer true
              (mem_of [Byte.x0d; Byte.x01; Byte.x02; Byte.x03]) 4
              (mk_pbf 1 4 13 1)) as (H1 & H2 & _).
  - lia.
  - cbn. lia.
  - right. left. split; reflexivity.
  - split; [exact H1 | apply H2; reflexivity].
Defined.

(** ** Length-delimited values *)

(** X8. [string()] on a field of wire type 2 laid out at the cursor as a
    length varint [lb] and a payload [bs] of as many bytes as its value,
    fewer than [2^32], all of it before [end]: it returns exactly the
    payload, leaves the cursor on the first byte after it, and loads the
    bytes of the length and of the payload, in that order, and no other.
    The length varint has at most five bytes, or up to ten where a shift by
    32 or more leaves no bit. *)
Theorem string_returns_payload debug overshift mem lb bs c :
  wire_type_in debug c [2] ->
  is_varint lb = true ->
  (List.length lb <= 10)%nat ->
  (List.length lb <= 5)%nat \/ shifts_out overshift uint32_t ->
  varint_value lb = Z.of_nat (List.length bs) ->
  Z.of_nat (List.length bs) < 2 ^ 32 ->
  stored mem (data c) (lb ++ bs) ->
  data c + Z.of_nat (List.length (lb ++ bs)) <= end_ c ->
  string_ debug overshift mem c =
    (Ok bs, advance c (Z.of_nat (List.length (lb ++ bs))),
     addrs (data c) (List.length (lb ++ bs))).
Proof.
  intros Hwt Hv Hlen Hshift HL Hsmall Hs Hroom.
  apply stored_app in Hs. destruct Hs as [Hs1 Hs2].
  rewrite length_app, Nat2Z.inj_add in *.
  destruct (length_on_wire debug overshift mem lb c Hwt Hv Hlen Hshift Hs1
              ltac:(lia) ltac:(lia)) as (Ev & Ha & Hwrap).
  rewrite string_eq, Ev, Ha, Hwrap, HL. cbn [data end_ advance].
  replace (_ >? _) with false
    by (symmetry; rewrite Z.gtb_ltb; apply Z.ltb_ge; lia).
  rewrite advance_advance, Nat2Z.id, addrs_app.
  now rewrite (stored_bytes mem bs _ Hs2).
Qed.

Lemma string_returns_payload_witness :
  string_ true overshift_modular
    (mem_of [Byte.x0a; Byte.x02; Byte.x68; Byte.x69; Byte.x10; Byte.x01])
    (mk_pbf 1 6 10 1) =
    (Ok [Byte.x68; Byte.x69], mk_pbf 4 6 10 1, [1; 2; 3]).
Proof.
  apply (string_returns_payload true overshift_modular
           (mem_of [Byte.x0a; Byte.x02; Byte.x68; Byte.x69; Byte.x10; Byte.x01])
           [Byte.x02] [Byte.x68; Byte.x69] (mk_pbf 1 6 10 1)).
  - right. cbn. auto.
  - reflexivity.
  - cbn. lia.
  - left. cbn. lia.
  - vm_compute. reflexivity.
  - vm_compute. reflexivity.
  - cbn. repeat split.
  - cbn. lia.
Defined.

(** X9. A length-delimited value that the buffer cuts short: when the
    length varint [lb] at the cursor has a value below [2^32] and fewer
    bytes than that value are left behind it, [string()], [message()] and
    [skip()] all throw the end-of-buffer exception, and the cursor is not
    put back: it stays behind the length varint, whose bytes are the only
    ones loaded.  The length varint has at most five bytes, or up to ten
    where a shift by 32 or more leaves no bit. *)
Theorem length_delimited_truncated debug overshift mem lb c :
  wire_type c = 2 ->
  is_varint lb = true ->
  (List.length lb <= 10)%nat ->
  (List.length lb <= 5)%nat \/ shifts_out overshift uint32_t ->
  stored mem (data c) lb ->
  data c + Z.of_nat (List.length lb) <= end_ c ->
  varint_value lb < 2 ^ 32 ->
  end_ c < data c + Z.of_nat (List.length lb) + varint_value lb ->
  string_ debug overshift mem c =
    (Fail (Throw end_of_buffer_exception),
     advance c (Z.of_nat (List.length lb)), addrs (data c) (List.length lb)) /\
  message debug overshift mem c =
    (Fail (Throw end_of_buffer_exception),
     advance c (Z.of_nat (List.length lb)), addrs (data c) (List.length lb)) /\
  skip debug overshift mem c =
    (Fail (Throw end_of_buffer_exception),
     advance c (Z.of_nat (List.length lb)), addrs (data c) (List.length lb)).
Proof.
  intros Hw Hv Hlen Hshift Hs Hroom HL Hshort.
  assert (Hwt : wire_type_in debug c [2]) by (right; cbn; auto).
  destruct (length_on_wire debug overshift mem lb c Hwt Hv Hlen Hshift Hs
              Hroom HL) as (Ev & Ha & Hwrap).
  assert (Hgt : (data (advance c (Z.of_nat (List.length lb))) + varint_value lb
                 >? end_ (advance c (Z.of_nat (List.length lb)))) = true)
    by (cbn [data end_ advance]; rewrite Z.gtb_ltb; apply Z.ltb_lt; lia).
  repeat split.
  - rewrite string_eq, Ev, Ha, Hwrap. now rewrite Hgt.
  - rewrite message_eq, Ev, Ha, Hwrap. now rewrite Hgt.
  - rewrite skip_length_delimited, Ev, Hwrap by assumption. now rewrite Hgt.
Qed.

Lemma length_delimited_truncated_witness :
  string_ true overshift_modular (mem_of [Byte.x0a; Byte.x05; Byte.x68; Byte.x69])
    (mk_pbf 1 4 10 1) =
    (Fail (Throw end_of_buffer_exception), mk_pbf 2 4 10 1, [1]) /\
  message true overshift_modular (mem_of [Byte.x0a; Byte.x05; Byte.x68; Byte.x69])
    (mk_pbf 1 4 10 1) =
    (Fail (Throw end_of_buffer_exception), mk_pbf 2 4 10 1, [1]) /\
  skip true overshift_modular (mem_of [Byte.x0a; Byte.x05; Byte.x68; Byte.x69])
    (mk_pbf 1 4 10 1) =
    (Fail (Throw end_of_buffer_exception), mk_pbf 2 4 10 1, [1]).
Proof.
  apply (length_delimited_truncated true overshift_modular
           (mem_of [Byte.x0a; Byte.x05; Byte.x68; Byte.x69])
           [Byte.x05] (mk_pbf 1 4 10 1)).
  - reflexivity.
  - reflexivity.
  - cbn. lia.
  - left. cbn. lia.
  - cbn. repeat split.
  - cbn. lia.
  - vm_compute. reflexivity.
  - vm_compute. reflexivity.
Defined.

(** X10. [string()] and [message()] read a length-delimited field alike:
    on a field of wire type 2 they leave the parent cursor at the same
    place and fail alike, and when [message()] returns the sub-cursor
    [sub], [string()] returns exactly the bytes from [sub]'s [data] up to
    its [end]. *)
Theorem string_message_agree debug overshift mem c :
  wire_type c = 2 ->
  cursor_of (string_ debug overshift mem c) =
    cursor_of (message debug overshift mem c) /\
  (forall sub, outcome_of (message debug overshift mem c) = Ok sub ->
     outcome_of (string_ debug overshift mem c) =
       Ok (map mem (addrs (data sub) (Z.to_nat (end_ sub - data sub))))) /\
  (forall f, outcome_of (message debug overshift mem c) = Fail f ->
     outcome_of (string_ debug overshift mem c) = Fail f).
Proof.
  intros Hw.
  assert (Hwt : wire_type_in debug c [2]) by (right; cbn; auto).
  rewrite string_eq, message_eq, (wire_type_assert debug c 2 Hwt).
  destruct (varint debug overshift mem uint32_t c) as [[[v|f] c1] r1].
  - destruct (data c1 + wrap uint32_t v >? end_ c1);
      cbn [outcome_of cursor_of fst snd].
    + split; [reflexivity|]. split; [discriminate|].
      intros f E. now inversion E.
    + split; [reflexivity|]. split; [|discriminate].
      intros sub E. inversion E; subst; clear E.
      unfold new_pbf; cbn [data end_].
      do 3 f_equal. lia.
  - cbn [outcome_of cursor_of fst snd].
    split; [reflexivity|]. split; [discriminate|].
    intros f' E. now inversion E.
Qed.

Lemma string_message_agree_witness :
  cursor_of (string_ true overshift_modular
    (mem_of [Byte.x0a; Byte.x02; Byte.x68; Byte.x69; Byte.x10; Byte.x01])
    (mk_pbf 1 6 10 1)) =
  cursor_of (message true overshift_modular
    (mem_of [Byte.x0a; Byte.x02; Byte.x68; Byte.x69; Byte.x10; Byte.x01])
    (mk_pbf 1 6 10 1)).
Proof.
  apply (string_message_agree true overshift_modular
           (mem_of [Byte.x0a; Byte.x02; Byte.x68; Byte.x69; Byte.x10; Byte.x01])
           (mk_pbf 1 6 10 1)).
  reflexivity.
Defined.

(** X11. The sub-cursor of [message()] lies inside what the parent had
    left: it starts at or after the parent's old position, ends where the
    parent now stands, which is not past the parent's [end], and carries no
    key yet (value and tag 0, so wire type 0).  Scanning it with [next()]
    or [next(tag)] then stays inside the payload: the sub-cursor keeps its
    [end], does not move past it, and only bytes of the payload are
    loaded. *)
Theorem message_sub_cursor_inside debug overshift mem c sub c' r :
  data c <= end_ c ->
  message debug overshift mem c = (Ok sub, c', r) ->
  data c <= data sub /\ data sub <= end_ sub /\ end_ sub = data c' /\
  data c' <= end_ c /\ end_ c' = end_ c /\
  value sub = 0 /\ tag sub = 0 /\ wire_type sub = 0 /\
  in_bounds sub (next debug overshift mem sub) /\
  (forall t, in_bounds sub (next_tag debug overshift mem t sub)).
Proof.
  intros Hc E. rewrite message_eq in E.
  destruct (debug && negb (is_wire_type c 2)); [discriminate|].
  pose proof (varint_in_bounds debug overshift mem uint32_t c Hc) as Hb.
  destruct (varint debug overshift mem uint32_t c) as [[[v|f] c1] r1];
    [|discriminate].
  destruct Hb as (He & Hd & _). cbn [cursor_of fst snd] in He, Hd.
  pose proof (wrap_uint32_range v) as Hv.
  destruct (data c1 + wrap uint32_t v >? end_ c1) eqn:Es; [discriminate|].
  rewrite Z.gtb_ltb in Es. apply Z.ltb_ge in Es.
  inversion E; subst; clear E.
  assert (Hsub : data (new_pbf (data c1) (wrap uint32_t v))
                 <= end_ (new_pbf (data c1) (wrap uint32_t v)))
    by (unfold new_pbf; cbn [data end_]; lia).
  split; [unfold new_pbf; cbn [data]; lia|].
  split; [exact Hsub|].
  split; [reflexivity|].
  split; [cbn [data advance]; lia|].
  split; [cbn [end_ advance]; lia|].
  do 3 (split; [reflexivity|]).
  split; [now apply next_in_bounds | intros t; now apply next_tag_in_bounds].
Qed.

Lemma message_sub_cursor_inside_witness :
  1 <= data (mk_pbf 2 4 0 0) /\ data (mk_pbf 2 4 0 0) <= end_ (mk_pbf 2 4 0 0) /\
  end_ (mk_pbf 2 4 0 0) = data (mk_pbf 4 6 10 1) /\
  data (mk_pbf 4 6 10 1) <= 6 /\ end_ (mk_pbf 4 6 10 1) = 6 /\
  value (mk_pbf 2 4 0 0) = 0 /\ tag (mk_pbf 2 4 0 0) = 0 /\
  wire_type (mk_pbf 2 4 0 0) = 0 /\
  in_bounds (mk_pbf 2 4 0 0)
    (next true overshift_modular
       (mem_of [Byte.x0a; Byte.x02; Byte.x08; Byte.x01; Byte.x10; Byte.x01])
       (mk_pbf 2 4 0 0)) /\
  (forall t, in_bounds (mk_pbf 2 4 0 0)
     (next_tag true overshift_modular
        (mem_of [Byte.x0a; Byte.x02; Byte.x08; Byte.x01; Byte.x10; Byte.x01])
        t (mk_pbf 2 4 0 0))).
Proof.
  apply (message_sub_cursor_inside true overshift_modular
           (mem_of [Byte.x0a; Byte.x02; Byte.x08; Byte.x01; Byte.x10; Byte.x01])
           (mk_pbf 1 6 10 1) (mk_pbf 2 4 0 0) (mk_pbf 4 6 10 1) [1]).
  - cbn. lia.
  - vm_compute. reflexivity.
Defined.

(** ** Skipping *)

(** X12. On each wire type it knows, [skip()] ends as the accessor of that
    wire type ends, the value thrown away: [varint<uint32_t>()] for wire
    type 0, [float64()] for 1, [message()] for 2, [float32()] for 5.  The
    outcome (success, or the same failure) and the cursor are the same; so
    are the bytes loaded for the wire types 0 and 2, where the payload of
    wire type 2 is stepped over unread, while of a fixed-width value
    [skip()] loads no byte at all. *)
Theorem skip_matches_accessor debug overshift mem c :
  (wire_type c = 0 ->
   skip debug overshift mem c =
     (discard (outcome_of (varint debug overshift mem uint32_t c)),
      cursor_of (varint debug overshift mem uint32_t c),
      reads_of (varint debug overshift mem uint32_t c))) /\
  (wire_type c = 1 ->
   skip debug overshift mem c =
     (discard (outcome_of (float64 debug mem c)),
      cursor_of (float64 debug mem c), [])) /\
  (wire_type c = 2 ->
   skip debug overshift mem c =
     (discard (outcome_of (message debug overshift mem c)),
      cursor_of (message debug overshift mem c),
      reads_of (message debug overshift mem c))) /\
  (wire_type c = 5 ->
   skip debug overshift mem c =
     (discard (outcome_of (float32 debug mem c)),
      cursor_of (float32 debug mem c), [])).
Proof.
  split; [|split; [|split]]; intros Hw.
  - now apply skip_varint.
  - rewrite skip_fixed64, skipBytes_eq, float64_eq by assumption.
    unfold is_wire_type. rewrite Hw. rewrite andb_false_r.
    now destruct (data c + 8 >? end_ c).
  - assert (Hwt : wire_type_in debug c [2]) by (right; cbn; auto).
    rewrite skip_length_delimited, message_eq, (wire_type_assert debug c 2 Hwt)
      by assumption.
    destruct (varint debug overshift mem uint32_t c) as [[[v|f] c1] r1];
      [|reflexivity].
    now destruct (data c1 + wrap uint32_t v >? end_ c1).
  - rewrite skip_fixed32, skipBytes_eq, float32_eq by assumption.
    unfold is_wire_type. rewrite Hw. rewrite andb_false_r.
    now destruct (data c + 4 >? end_ c).
Qed.

Lemma skip_matches_accessor_witness :
  skip true overshift_modular
    (mem_of [Byte.x08; Byte.xac; Byte.x02]) (mk_pbf 1 3 8 1) =
    (discard (outcome_of (varint true overshift_modular
       (mem_of [Byte.x08; Byte.xac; Byte.x02]) uint32_t (mk_pbf 1 3 8 1))),
     mk_pbf 3 3 8 1, [1; 2]) /\
  skip true overshift_modular
    (mem_of [Byte.x0a; Byte.x02; Byte.x08; Byte.x01]) (mk_pbf 1 4 10 1) =
    (discard (outcome_of (message true overshift_modular
       (mem_of [Byte.x0a; Byte.x02; Byte.x08; Byte.x01]) (mk_pbf 1 4 10 1))),
     mk_pbf 4 4 10 1, [1]) /\
  skip true overshift_modular
    (mem_of [Byte.x0d; Byte.x00; Byte.x00; Byte.x80; Byte.x3f])
    (mk_pbf 1 5 13 1) =
    (discard (outcome_of (float32 true
       (mem_of [Byte.x0d; Byte.x00; Byte.x00; Byte.x80; Byte.x3f])
       (mk_pbf 1 5 13 1))),
     mk_pbf 5 5 13 1, []).
Proof.
  split; [|split].
  - apply (skip_matches_accessor true overshift_modular
             (mem_of [Byte.x08; Byte.xac; Byte.x02]) (mk_pbf 1 3 8 1)).
    reflexivity.
  - apply (skip_matches_accessor true overshift_modular
             (mem_of [Byte.x0a; Byte.x02; Byte.x08; Byte.x01])
             (mk_pbf 1 4 10 1)).
    reflexivity.
  - apply (skip_matches_accessor true overshift_modular
             (mem_of [Byte.x0d; Byte.x00; Byte.x00; Byte.x80; Byte.x3f])
             (mk_pbf 1 5 13 1)).
    reflexivity.
Defined.


(** ** What a run of [varint] tells about the buffer *)

(** A run of the loop that comes back went over bytes [bs] stored from
    [data] on, each one before [end]; every byte but the last it holds
    continues, and it stopped on a byte that does not, or at [bitpos >= 70]. *)
Lemma varint_loop_ok overshift mem T fuel :
  forall bitpos b r c bitpos' b' r' c' rd,
  varint_loop overshift mem T fuel bitpos b r c = (Ok (bitpos', b', r'), c', rd) ->
  exists bs,
    stored mem (data c) bs /\
    c' = advance c (Z.of_nat (List.length bs)) /\
    rd = addrs (data c) (List.length bs) /\
    r' = accumulate overshift T bitpos r bs /\
    b' = last_of b bs /\
    bitpos' = bitpos + 7 * Z.of_nat (List.length bs) /\
    (bs = [] \/ data c + Z.of_nat (List.length bs) <= end_ c) /\
    (bs <> [] -> (bitpos <? 70) && continues b = true) /\
    (continues b' = false -> bs = [] \/ is_varint bs = true) /\
    (continues b' = true -> forallb continues bs = true) /\
    (bitpos' <? 70) && continues b' = false /\
    (List.length bs <= fuel)%nat.
Proof.
  induction fuel as [|fuel IH]; intros bitpos b r c bitpos' b' r' c' rd E;
    destruct ((bitpos <? 70) && continues b) eqn:Hcond.
  - rewrite varint_loop_out_of_fuel in E by assumption. discriminate.
  - rewrite varint_loop_exit in E by assumption. inversion E; subst; clear E.
    exists []. cbn [List.length stored addrs accumulate last_of forallb].
    rewrite advance_0. change (Z.of_nat 0) with 0. rewrite Z.mul_0_r, Z.add_0_r.
    repeat split; auto; try congruence; lia.
  - rewrite varint_loop_step in E by assumption.
    destruct (data c >=? end_ c) eqn:Hend; [discriminate|].
    rewrite Z.geb_leb in Hend. apply Z.leb_gt in Hend.
    destruct (varint_loop overshift mem T fuel (bitpos + 7) (mem (data c))
                (add_group overshift T bitpos r (mem (data c))) (advance c 1))
      as [[o c2] r2] eqn:E2.
    unfold prepend_reads in E. cbn [outcome_of cursor_of reads_of fst snd] in E.
    inversion E; subst; clear E.
    destruct (IH _ _ _ _ _ _ _ _ _ E2)
      as (bs & Hs & Hc & Hr & Hacc & Hlast & Hpos & Hroom & Hne & Hv & Hall & Hx
          & Hfuel).
    cbn [data end_ advance] in Hs, Hr, Hroom.
    exists (mem (data c) :: bs).
    cbn [List.length stored addrs accumulate last_of forallb app].
    rewrite Hc, advance_advance, Nat2Z.inj_succ.
    repeat split; try assumption; try reflexivity.
    + f_equal. lia.
    + now rewrite Hr.
    + lia.
    + right. destruct Hroom as [-> | Hroom]; cbn [List.length]; lia.
    + intros Hb'. right. cbn [is_varint]. destruct bs as [|y bs].
      * cbn [last_of] in Hlast. rewrite <- Hlast, Hb'. reflexivity.
      * destruct (Hv Hb') as [Hnil | Hv']; [discriminate|].
        destruct (andb_prop _ _ (Hne ltac:(discriminate))) as [_ Hcx].
        now rewrite Hcx, Hv'.
    + intros Hb'. destruct bs as [|y bs].
      * cbn [last_of] in Hlast. rewrite <- Hlast, Hb'. reflexivity.
      * destruct (andb_prop _ _ (Hne ltac:(discriminate))) as [_ Hcx].
        now rewrite Hcx, (Hall Hb').
    + lia.
  - rewrite varint_loop_exit in E by assumption. inversion E; subst; clear E.
    exists []. cbn [List.length stored addrs accumulate last_of forallb].
    rewrite advance_0. change (Z.of_nat 0) with 0. rewrite Z.mul_0_r, Z.add_0_r.
    repeat split; auto; try congruence; lia.
Qed.

(** A run of the loop that fails ran out of buffer (or of fuel): it went
    over continuation bytes only, each before [end], and stands at or past
    [end] with [bitpos] still below 70. *)
Lemma varint_loop_fail overshift mem T fuel :
  forall bitpos b r c f c' rd,
  varint_loop overshift mem T fuel bitpos b r c = (Fail f, c', rd) ->
  f = OutOfFuel \/
  f = Throw unterminated_varint_exception /\
  exists n : nat,
    (forall a, data c <= a < data c + Z.of_nat n -> continues (mem a) = true) /\
    c' = advance c (Z.of_nat n) /\
    rd = addrs (data c) n /\
    end_ c <= data c + Z.of_nat n /\
    (n = 0%nat \/ data c + Z.of_nat n <= end_ c) /\
    bitpos + 7 * Z.of_nat n < 70.
Proof.
  induction fuel as [|fuel IH]; intros bitpos b r c f c' rd E;
    destruct ((bitpos <? 70) && continues b) eqn:Hcond.
  - rewrite varint_loop_out_of_fuel in E by assumption. inversion E. now left.
  - rewrite varint_loop_exit in E by assumption. discriminate.
  - rewrite varint_loop_step in E by assumption.
    destruct (andb_prop _ _ Hcond) as [Hlt _]. apply Z.ltb_lt in Hlt.
    destruct (data c >=? end_ c) eqn:Hend.
    + rewrite Z.geb_leb in Hend. apply Z.leb_le in Hend.
      inversion E; subst; clear E. right. split; [reflexivity|].
      exists 0%nat. rewrite advance_0. change (Z.of_nat 0) with 0.
      cbn [addrs]. repeat split; lia.
    + rewrite Z.geb_leb in Hend. apply Z.leb_gt in Hend.
      destruct (varint_loop overshift mem T fuel (bitpos + 7) (mem (data c))
                  (add_group overshift T bitpos r (mem (data c))) (advance c 1))
        as [[o c2] r2] eqn:E2.
      unfold prepend_reads in E. cbn [outcome_of cursor_of reads_of fst snd] in E.
      inversion E; subst; clear E.
      destruct (IH _ _ _ _ _ _ _ E2)
        as [-> | [-> (n & Hall & Hc & Hr & He & Hroom & Hpos)]];
        [now left | right]. split; [reflexivity|].
      cbn [data end_ advance] in Hall, Hr, He, Hroom.
      exists (S n). rewrite Nat2Z.inj_succ. cbn [addrs app].
      rewrite Hc, advance_advance.
      repeat split; try lia.
      * intros a Ha. destruct (Z.eq_dec a (data c)) as [-> | Hne].
        -- assert (Hc1 : (bitpos + 7 <? 70) && continues (mem (data c)) = true).
           { destruct ((bitpos + 7 <? 70) && continues (mem (data c))) eqn:Hc1;
               [reflexivity|].
             rewrite varint_loop_exit in E2 by assumption. discriminate. }
           now destruct (andb_prop _ _ Hc1).
        -- apply Hall. lia.
      * f_equal. lia.
      * now rewrite Hr.
  - rewrite varint_loop_exit in E by assumption. discriminate.
Qed.


Lemma stored_forallb mem (f : byte -> bool) bs : forall p,
  stored mem p bs -> forallb f bs = true ->
  forall a, p <= a < p + Z.of_nat (List.length bs) -> f (mem a) = true.
Proof.
  induction bs as [|b bs IH]; intros p Hs Hf a Ha.
  - cbn [List.length] in Ha. lia.
  - destruct Hs as [Hb Hs]. cbn [forallb] in Hf.
    destruct (andb_prop _ _ Hf) as [Hfb Hfs].
    cbn [List.length] in Ha. rewrite Nat2Z.inj_succ in Ha.
    destruct (Z.eq_dec a p) as [-> | Hne]; [now rewrite Hb|].
    apply (IH (p + 1)); try assumption. lia.
Qed.

Lemma is_varint_nonempty bs : is_varint bs = true -> (1 <= List.length bs)%nat.
Proof. destruct bs; [discriminate|]. cbn [List.length]. lia. Qed.

(** [varint] returns a value only from a complete varint of at most ten
    bytes that lies before [end]. *)
Lemma varint_ok_inv debug overshift mem T c v c' r :
  varint debug overshift mem T c = (Ok v, c', r) ->
  wire_type_in debug c [0; 2] /\
  exists bs,
    is_varint bs = true /\ (List.length bs <= 10)%nat /\
    stored mem (data c) bs /\
    data c + Z.of_nat (List.length bs) <= end_ c /\
    v = accumulate overshift T 0 0 bs /\
    c' = advance c (Z.of_nat (List.length bs)) /\
    r = addrs (data c) (List.length bs).
Proof.
  intros E.
  destruct (varint_precondition_cases debug c) as [[-> Ha] | Hwt].
  { rewrite varint_assert_fails in E by assumption. discriminate. }
  split; [assumption|]. rewrite varint_eq in E by assumption.
  destruct (varint_loop overshift mem T 10 0 Byte.x80 0 c)
    as [[[[[bitpos b] result]|f] c2] r2] eqn:El; [|discriminate].
  destruct ((bitpos =? 70) && continues b) eqn:Hlong; [discriminate|].
  inversion E; subst; clear E.
  destruct (varint_loop_ok _ _ _ _ _ _ _ _ _ _ _ _ _ El)
    as (bs & Hs & Hc & Hr & Hacc & Hlast & Hpos & Hroom & Hne & Hv & Hall & Hx
          & Hfuel).
  assert (Hb : continues b = false).
  { destruct (continues b) eqn:Hb; [|reflexivity].
    rewrite andb_true_r in Hx, Hlong.
    apply Z.ltb_ge in Hx. apply Z.eqb_neq in Hlong. lia. }
  destruct (Hv Hb) as [-> | Hv'].
  { cbn [last_of] in Hlast. subst b. discriminate. }
  exists bs. pose proof (is_varint_nonempty bs Hv') as Hlen.
  destruct Hroom as [-> | Hroom]; [cbn [List.length] in Hlen; lia|].
  repeat split; assumption.
Qed.

(** Past its assertion, [varint] fails with one of its two exceptions
    only, and each tells where the cursor is. *)
Lemma varint_fail_inv debug overshift mem T c f c' r :
  wire_type_in debug c [0; 2] ->
  data c <= end_ c ->
  varint debug overshift mem T c = (Fail f, c', r) ->
  f = Throw unterminated_varint_exception /\
    end_ c - data c < 10 /\
    (forall a, data c <= a < end_ c -> continues (mem a) = true) /\
    c' = advance c (end_ c - data c) /\
    r = addrs (data c) (Z.to_nat (end_ c - data c)) \/
  f = Throw varint_too_long_exception /\
    data c + 10 <= end_ c /\
    (forall a, data c <= a < data c + 10 -> continues (mem a) = true) /\
    c' = advance c 10 /\
    r = addrs (data c) 10.
Proof.
  intros Hwt Hc E. rewrite varint_eq in E by assumption.
  pose proof (varint_loop_total overshift mem T 10 0 Byte.x80 0 c ltac:(lia))
    as Htot.
  destruct (varint_loop overshift mem T 10 0 Byte.x80 0 c)
    as [[[[[bitpos b] result]|f'] c2] r2] eqn:El.
  - destruct ((bitpos =? 70) && continues b) eqn:Hlong; [|discriminate].
    inversion E; subst; clear E. right. split; [reflexivity|].
    destruct (andb_prop _ _ Hlong) as [Hpos70 Hb]. apply Z.eqb_eq in Hpos70.
    destruct (varint_loop_ok _ _ _ _ _ _ _ _ _ _ _ _ _ El)
      as (bs & Hs & Hc' & Hr & Hacc & Hlast & Hpos & Hroom & Hne & Hv & Hall & Hx
            & Hfuel).
    assert (Hlen : List.length bs = 10%nat) by lia.
    rewrite Hlen in *. change (Z.of_nat 10) with 10 in *.
    destruct Hroom as [-> | Hroom]; [discriminate|].
    repeat split; try assumption.
    intros a Ha. apply (stored_forallb mem continues bs (data c) Hs (Hall Hb)).
    rewrite Hlen. change (Z.of_nat 10) with 10. lia.
  - inversion E; subst; clear E. left.
    destruct (varint_loop_fail _ _ _ _ _ _ _ _ _ _ _ El)
      as [-> | [-> (n & Hall & Hc' & Hr & He & Hroom & Hpos)]].
    { exfalso. now apply Htot. }
    split; [reflexivity|].
    assert (Hn : Z.of_nat n = end_ c - data c).
    { destruct Hroom as [-> | Hroom]; [change (Z.of_nat 0) with 0 in *|]; lia. }
    rewrite <- Hn, Nat2Z.id. repeat split; try assumption; try lia.
    intros a Ha. apply Hall. lia.
Qed.

(** X13. [varint<T>()] returns a value exactly when a complete varint of at
    most ten bytes lies at the cursor and ends before [end]: it then returns
    what the loop accumulates over those bytes, leaves the cursor on the byte
    after the last of them, and has loaded those bytes and no other. *)
Theorem varint_returns_iff debug overshift mem T c v c' r :
  wire_type_in debug c [0; 2] ->
  varint debug overshift mem T c = (Ok v, c', r) <->
  exists bs,
    is_varint bs = true /\ (List.length bs <= 10)%nat /\
    stored mem (data c) bs /\
    data c + Z.of_nat (List.length bs) <= end_ c /\
    v = accumulate overshift T 0 0 bs /\
    c' = advance c (Z.of_nat (List.length bs)) /\
    r = addrs (data c) (List.length bs).
Proof.
  intros Hwt. split.
  - intros E. now destruct (varint_ok_inv _ _ _ _ _ _ _ _ E).
  - intros (bs & Hv & Hlen & Hs & Hroom & -> & -> & ->).
    now apply varint_decode.
Qed.

Lemma varint_returns_iff_witness :
  varint true overshift_modular (mem_of [Byte.xac; Byte.x02; Byte.xff])
    uint32_t (new_pbf 0 3) = (Ok 300, mk_pbf 2 3 0 0, [0; 1]) <->
  exists bs,
    is_varint bs = true /\ (List.length bs <= 10)%nat /\
    stored (mem_of [Byte.xac; Byte.x02; Byte.xff]) (data (new_pbf 0 3)) bs /\
    data (new_pbf 0 3) + Z.of_nat (List.length bs) <= end_ (new_pbf 0 3) /\
    300 = accumulate overshift_modular uint32_t 0 0 bs /\
    mk_pbf 2 3 0 0 = advance (new_pbf 0 3) (Z.of_nat (List.length bs)) /\
    [0; 1] = addrs (data (new_pbf 0 3)) (List.length bs).
Proof.
  apply (varint_returns_iff true overshift_modular
           (mem_of [Byte.xac; Byte.x02; Byte.xff]) uint32_t (new_pbf 0 3)
           300 (mk_pbf 2 3 0 0) [0; 1]).
  right. cbn. auto.
Defined.

(** X14. The two exceptions of [varint<T>()] tell where the buffer stands.
    The unterminated-varint exception means that fewer than ten bytes were
    left, every one of them with its high bit set, and the cursor is now at
    [end]; the varint-too-long exception means that ten bytes with the high
    bit set were ahead, and the cursor is now behind exactly those ten.
    [varint] throws no other exception. *)
Theorem varint_failure_positions debug overshift mem T c c' r :
  data c <= end_ c ->
  (varint debug overshift mem T c =
     (Fail (Throw unterminated_varint_exception), c', r) ->
   end_ c - data c < 10 /\
   (forall a, data c <= a < end_ c -> continues (mem a) = true) /\
   c' = advance c (end_ c - data c) /\
   r = addrs (data c) (Z.to_nat (end_ c - data c))) /\
  (varint debug overshift mem T c =
     (Fail (Throw varint_too_long_exception), c', r) ->
   data c + 10 <= end_ c /\
   (forall a, data c <= a < data c + 10 -> continues (mem a) = true) /\
   c' = advance c 10 /\
   r = addrs (data c) 10) /\
  (forall e, varint debug overshift mem T c = (Fail (Throw e), c', r) ->
   e = unterminated_varint_exception \/ e = varint_too_long_exception).
Proof.
  intros Hc.
  destruct (varint_precondition_cases debug c) as [[-> Ha] | Hwt].
  { rewrite varint_assert_fails by assumption.
    repeat split; intros; discriminate. }
  split; [|split].
  - intros E. destruct (varint_fail_inv _ _ _ _ _ _ _ _ Hwt Hc E)
      as [(_ & H) | (Hf & _)]; [exact H | discriminate].
  - intros E. destruct (varint_fail_inv _ _ _ _ _ _ _ _ Hwt Hc E)
      as [(Hf & _) | (_ & H)]; [discriminate | exact H].
  - intros e E. destruct (varint_fail_inv _ _ _ _ _ _ _ _ Hwt Hc E)
      as [(Hf & _) | (Hf & _)]; inversion Hf; auto.
Qed.

Lemma varint_failure_positions_witness :
  2 - 0 < 10 /\
  (forall a, 0 <= a < 2 ->
     continues (mem_of [Byte.x80; Byte.xff] a) = true) /\
  mk_pbf 2 2 0 0 = advance (new_pbf 0 2) (2 - 0) /\
  [0; 1] = addrs 0 (Z.to_nat (2 - 0)).
Proof.
  apply (varint_failure_positions true overshift_modular
           (mem_of [Byte.x80; Byte.xff]) uint32_t (new_pbf 0 2)
           (mk_pbf 2 2 0 0) [0; 1]).
  - cbn. lia.
  - vm_compute. reflexivity.
Defined.

(** X15. Round trip of a varint: what the base-128 encoder writes for [n],
    [varint<T>()] reads back.  For every [n] that fits [T]'s width the value
    returned is [n] as [T] holds it, which is [n] itself when [T] is
    unsigned or [n] is below [2^(bits - 1)]; the cursor ends on the byte
    after the encoding and only the bytes of the encoding are loaded. *)
Theorem varint_roundtrip debug overshift mem T n c :
  7 <= bits T <= 64 ->
  0 <= n < 2 ^ bits T ->
  wire_type_in debug c [0; 2] ->
  stored mem (data c) (encode_varint 10 n) ->
  data c + Z.of_nat (List.length (encode_varint 10 n)) <= end_ c ->
  varint debug overshift mem T c =
    (Ok (wrap T n), advance c (Z.of_nat (List.length (encode_varint 10 n))),
     addrs (data c) (List.length (encode_varint 10 n))) /\
  (is_signed T = false \/ n < 2 ^ (bits T - 1) -> wrap T n = n).
Proof.
  intros Hw Hn Hwt Hst Hroom.
  split; [now apply varint_encode_varint|].
  intros [Hs | Hs].
  - rewrite wrap_unsigned by assumption. apply Z.mod_small. lia.
  - destruct (is_signed T) eqn:Hsg.
    + apply wrap_signed_small; try assumption; lia.
    + rewrite wrap_unsigned by assumption. apply Z.mod_small. lia.
Qed.

Lemma varint_roundtrip_witness :
  varint true overshift_modular (mem_of (encode_varint 10 4294967295))
    uint32_t (new_pbf 0 5) =
    (Ok (wrap uint32_t 4294967295), advance (new_pbf 0 5) 5, addrs 0 5) /\
  (is_signed uint32_t = false \/ 4294967295 < 2 ^ (bits uint32_t - 1) ->
   wrap uint32_t 4294967295 = 4294967295).
Proof.
  apply (varint_roundtrip true overshift_modular
           (mem_of (encode_varint 10 4294967295)) uint32_t 4294967295
           (new_pbf 0 5)).
  - cbn; lia.
  - cbn; lia.
  - right. cbn. auto.
  - apply stored_mem_of.
  - vm_compute. discriminate.
Defined.


(** ** Keys *)

Lemma pack_key_sum field wt : 0 <= wt < 8 -> pack_key field wt = 8 * field + wt.
Proof.
  intros Hwt. unfold pack_key.
  assert (Hl : wt = Z.land wt (Z.ones 3)).
  { rewrite Z.land_ones by lia. change (2 ^ 3) with 8.
    symmetry. apply Z.mod_small. lia. }
  rewrite Hl at 1. rewrite Z.or_to_plus.
  - rewrite Z.shiftl_mul_pow2 by lia. change (2 ^ 3) with 8. rewrite <- Hl. lia.
  - bits.
Qed.

Lemma key_parts v :
  Z.shiftr v 3 = v / 8 /\ Z.land v 7 = v mod 8.
Proof.
  split.
  - now rewrite Z.shiftr_div_pow2 by lia.
  - change 7 with (Z.ones 3). now rewrite Z.land_ones by lia.
Qed.

(** [next] on an encoded key. *)
Lemma next_on_key debug overshift mem field wt c :
  0 <= field < 2 ^ 29 ->
  0 <= wt < 8 ->
  wire_type_in debug c [0; 2] ->
  stored mem (data c) (encode_varint 10 (pack_key field wt)) ->
  data c + Z.of_nat (List.length (encode_varint 10 (pack_key field wt)))
    <= end_ c ->
  next debug overshift mem c =
    (Ok true,
     mk_pbf
       (data c + Z.of_nat (List.length (encode_varint 10 (pack_key field wt))))
       (end_ c) (pack_key field wt) field,
     addrs (data c) (List.length (encode_varint 10 (pack_key field wt)))) /\
  Z.land (pack_key field wt) 7 = wt.
Proof.
  intros Hf Hwt Hpre Hs Hroom.
  pose proof (pack_key_sum field wt Hwt) as Hk.
  assert (Hr : 0 <= pack_key field wt < 2 ^ 32).
  { rewrite Hk. change (2 ^ 32) with (8 * 2 ^ 29). lia. }
  destruct (key_parts (pack_key field wt)) as [Hsh Hland].
  assert (Hdiv : pack_key field wt / 8 = field).
  { rewrite Hk. symmetry. apply (Z.div_unique _ 8 field wt); lia. }
  assert (Hmod : pack_key field wt mod 8 = wt).
  { rewrite Hk. symmetry. apply (Z.mod_unique _ 8 field wt); lia. }
  destruct (encode_varint_correct 10 (pack_key field wt)) as (Hv & _).
  { lia. }
  { split; [lia|]. apply Z.lt_le_trans with (2 ^ 32); [lia|].
    apply Z.pow_le_mono_r; lia. }
  pose proof (is_varint_nonempty _ Hv) as Hlen.
  split.
  - rewrite next_eq.
    replace (data c <? end_ c) with true by (symmetry; apply Z.ltb_lt; lia).
    rewrite (varint_encode_varint debug overshift mem uint32_t
               (pack_key field wt) c) by (cbn [bits uint32_t]; assumption || lia).
    rewrite !wrap_uint32, !(Z.mod_small _ _ Hr), Hsh, Hdiv.
    reflexivity.
  - now rewrite Hland, Hmod.
Qed.

(** X16. [next()] on the key of a field: with the varint of
    [(field << 3) | wt] at the cursor and before [end], for a field number
    below [2^29] and a wire type below 8.  Where asserts are compiled out,
    or the wire type the cursor holds from the key before is 0 or 2 (as on
    a new cursor), [next()] returns true, leaves the cursor on the byte
    after the key with [value] the key, [tag] the field number and the wire
    type [wt], and has loaded the bytes of the key only.  Where asserts are
    compiled in and the wire type held is neither 0 nor 2 (after a
    fixed-width field), [next()] stops on the assertion of [varint] instead,
    the cursor unmoved and nothing loaded. *)
Theorem next_decodes_key debug overshift mem field wt c :
  0 <= field < 2 ^ 29 ->
  0 <= wt < 8 ->
  stored mem (data c) (encode_varint 10 (pack_key field wt)) ->
  data c + Z.of_nat (List.length (encode_varint 10 (pack_key field wt)))
    <= end_ c ->
  (wire_type_in debug c [0; 2] ->
   next debug overshift mem c =
     (Ok true,
      mk_pbf
        (data c + Z.of_nat (List.length (encode_varint 10 (pack_key field wt))))
        (end_ c) (pack_key field wt) field,
      addrs (data c) (List.length (encode_varint 10 (pack_key field wt)))) /\
   wire_type
     (mk_pbf
        (data c + Z.of_nat (List.length (encode_varint 10 (pack_key field wt))))
        (end_ c) (pack_key field wt) field) = wt) /\
  (debug = true -> wire_type c <> 0 -> wire_type c <> 2 ->
   next debug overshift mem c =
     (Fail (AssertionFailed "not a varint"), c, [])).
Proof.
  intros Hf Hwt Hs Hroom. split.
  - intros Hpre.
    exact (next_on_key debug overshift mem field wt c Hf Hwt Hpre Hs Hroom).
  - intros -> H0 H2.
    assert (Hr : 0 <= pack_key field wt < 2 ^ 70).
    { rewrite (pack_key_sum field wt Hwt). split; [lia|].
      apply Z.lt_le_trans with (8 * 2 ^ 29); [lia|].
      change (8 * 2 ^ 29) with (2 ^ 32). apply Z.pow_le_mono_r; lia. }
    destruct (encode_varint_correct 10 (pack_key field wt) ltac:(lia) Hr)
      as (Hv & _).
    pose proof (is_varint_nonempty _ Hv) as Hlen.
    apply next_asserts; [|lia].
    apply orb_false_intro; unfold is_wire_type; now apply Z.eqb_neq.
Qed.

Lemma next_decodes_key_witness :
  (next true overshift_modular (mem_of (encode_varint 10 (pack_key 300 2)))
     (new_pbf 0 2) =
     (Ok true, mk_pbf 2 2 (pack_key 300 2) 300, [0; 1]) /\
   wire_type (mk_pbf 2 2 (pack_key 300 2) 300) = 2) /\
  next true overshift_modular
    (mem_of ([Byte.x0d; Byte.x01; Byte.x00; Byte.x00; Byte.x00]
             ++ encode_varint 10 (pack_key 2 0) ++ [Byte.x01]))
    (mk_pbf 5 7 13 1) =
    (Fail (AssertionFailed "not a varint"), mk_pbf 5 7 13 1, []).
Proof.
  split.
  - apply (next_decodes_key true overshift_modular
             (mem_of (encode_varint 10 (pack_key 300 2))) 300 2 (new_pbf 0 2)).
    + lia.
    + lia.
    + apply stored_mem_of.
    + vm_compute. discriminate.
    + right. cbn. auto.
  - apply (next_decodes_key true overshift_modular
             (mem_of ([Byte.x0d; Byte.x01; Byte.x00; Byte.x00; Byte.x00]
                      ++ encode_varint 10 (pack_key 2 0) ++ [Byte.x01]))
             2 0 (mk_pbf 5 7 13 1)).
    + lia.
    + lia.
    + vm_compute. repeat split.
    + vm_compute. discriminate.
    + reflexivity.
    + vm_compute. discriminate.
    + vm_compute. discriminate.
Defined.

(** X17. Whenever [next()] returns true it has consumed a key of one to ten
    bytes, all of them before [end], and loaded nothing else; [value] is a
    32-bit value, [tag] is [value >> 3], and [value] is [8 * tag] plus the
    wire type, which is below 8. *)
Theorem next_consumes_key debug overshift mem c c1 r :
  next debug overshift mem c = (Ok true, c1, r) ->
  exists n : nat,
    (1 <= n <= 10)%nat /\
    data c1 = data c + Z.of_nat n /\ data c1 <= end_ c /\ end_ c1 = end_ c /\
    r = addrs (data c) n /\
    0 <= value c1 < 2 ^ 32 /\
    tag c1 = Z.shiftr (value c1) 3 /\
    value c1 = 8 * tag c1 + wire_type c1 /\
    0 <= wire_type c1 < 8.
Proof.
  intros E. rewrite next_eq in E.
  destruct (data c <? end_ c); [|discriminate].
  destruct (varint debug overshift mem uint32_t c) as [[[v|f] c2] r2] eqn:Ev;
    [|discriminate].
  destruct (varint_ok_inv _ _ _ _ _ _ _ _ Ev)
    as (_ & bs & Hv & Hlen & Hs & Hroom & Hacc & Hc & Hr).
  pose proof (is_varint_nonempty bs Hv) as Hne.
  pose proof (wrap_uint32_range v) as Hrange.
  destruct (key_parts (wrap uint32_t v)) as [Hsh Hland].
  inversion E; subst c1 r; clear E. rewrite Hc, Hr.
  exists (List.length bs). unfold wire_type. cbn [data end_ value tag advance].
  rewrite Hland, Hsh.
  pose proof (Z.div_mod (wrap uint32_t v) 8 ltac:(lia)) as Hdm.
  pose proof (Z.mod_pos_bound (wrap uint32_t v) 8 ltac:(lia)) as Hmb.
  repeat split; try lia.
Qed.

Lemma next_consumes_key_witness :
  exists n : nat,
    (1 <= n <= 10)%nat /\
    data (mk_pbf 2 6 2402 300) = data (new_pbf 0 6) + Z.of_nat n /\
    data (mk_pbf 2 6 2402 300) <= end_ (new_pbf 0 6) /\
    end_ (mk_pbf 2 6 2402 300) = end_ (new_pbf 0 6) /\
    [0; 1] = addrs (data (new_pbf 0 6)) n /\
    0 <= value (mk_pbf 2 6 2402 300) < 2 ^ 32 /\
    tag (mk_pbf 2 6 2402 300) = Z.shiftr (value (mk_pbf 2 6 2402 300)) 3 /\
    value (mk_pbf 2 6 2402 300) =
      8 * tag (mk_pbf 2 6 2402 300) + wire_type (mk_pbf 2 6 2402 300) /\
    0 <= wire_type (mk_pbf 2 6 2402 300) < 8.
Proof.
  apply (next_consumes_key true overshift_modular
           (mem_of [Byte.xe2; Byte.x12; Byte.x02; Byte.x68; Byte.x69; Byte.x00])
           (new_pbf 0 6) (mk_pbf 2 6 2402 300) [0; 1]).
  vm_compute. reflexivity.
Defined.

(** X18. [next()] trips an assertion exactly when assertions are compiled
    in, a byte is left, and the wire type the cursor holds from the
    previous key is neither 0 nor 2; the assertion is then the one of
    [varint]. *)
Theorem next_asserts_iff debug overshift mem c msg :
  outcome_of (next debug overshift mem c) = Fail (AssertionFailed msg) <->
  debug = true /\ data c < end_ c /\
  wire_type c <> 0 /\ wire_type c <> 2 /\ msg = "not a varint"%string.
Proof.
  rewrite next_eq. split.
  - intros E. destruct (data c <? end_ c) eqn:Hd; [|discriminate].
    apply Z.ltb_lt in Hd.
    destruct (varint_precondition_cases debug c) as [[-> Ha] | Hwt].
    + rewrite varint_assert_fails in E by assumption.
      cbn [outcome_of fst] in E. injection E as <-.
      apply orb_false_elim in Ha. destruct Ha as [Hw0 Hw2].
      unfold is_wire_type in Hw0, Hw2.
      apply Z.eqb_neq in Hw0. apply Z.eqb_neq in Hw2. auto.
    + exfalso.
      destruct (varint debug overshift mem uint32_t c) as [[[v|f] c2] r2] eqn:Ev;
        [discriminate|].
      cbn [outcome_of fst] in E. inversion E; subst f; clear E.
      destruct (varint_fail_inv _ _ _ _ _ _ _ _ Hwt ltac:(lia) Ev)
        as [(Hf & _) | (Hf & _)]; discriminate.
  - intros (-> & Hd & H0 & H2 & ->).
    apply Z.ltb_lt in Hd. rewrite Hd.
    rewrite varint_assert_fails; [reflexivity|].
    apply orb_false_intro; unfold is_wire_type; now apply Z.eqb_neq.
Qed.


(** ** Instances of the general theorems *)

Lemma svarint_roundtrip_signed_half_witness :
  svarint true overshift_modular (mem_of (encode_svarint 32 (-1073741824)))
    int32_t (new_pbf 0 5) =
    (Ok (-1073741824), advance (new_pbf 0 5) 5, addrs 0 5).
Proof.
  apply (svarint_roundtrip_signed_half true overshift_modular
           (mem_of (encode_svarint 32 (-1073741824))) int32_t
           (-1073741824) (new_pbf 0 5)).
  - reflexivity.
  - cbn; lia.
  - cbn; lia.
  - right. cbn. auto.
  - apply stored_mem_of.
  - vm_compute. discriminate.
Defined.

Lemma varint_truncates_in_range_witness :
  varint true overshift_modular
    (mem_of [Byte.xff; Byte.xff; Byte.xff; Byte.xff; Byte.x7f])
    uint32_t (new_pbf 0 5) =
    (Ok (wrap uint32_t
           (varint_value [Byte.xff; Byte.xff; Byte.xff; Byte.xff; Byte.x7f])),
     advance (new_pbf 0 5) 5, addrs 0 5) /\
  (is_signed uint32_t = false ->
   wrap uint32_t
     (varint_value [Byte.xff; Byte.xff; Byte.xff; Byte.xff; Byte.x7f]) =
   varint_value [Byte.xff; Byte.xff; Byte.xff; Byte.xff; Byte.x7f]
     mod 2 ^ bits uint32_t).
Proof.
  apply (varint_truncates_in_range true overshift_modular
           (mem_of [Byte.xff; Byte.xff; Byte.xff; Byte.xff; Byte.x7f])
           uint32_t [Byte.xff; Byte.xff; Byte.xff; Byte.xff; Byte.x7f]
           (new_pbf 0 5)).
  - cbn; lia.
  - right. cbn. auto.
  - reflexivity.
  - cbn; lia.
  - left. cbn; lia.
  - apply stored_mem_of.
  - cbn; lia.
Defined.

Lemma operations_in_bounds_witness :
  in_bounds (mk_pbf 1 3 8 1)
    (next true overshift_modular (mem_of [Byte.x08; Byte.x01; Byte.x10])
       (mk_pbf 1 3 8 1)) /\
  in_bounds (mk_pbf 1 3 8 1)
    (string_ true overshift_modular (mem_of [Byte.x08; Byte.x01; Byte.x10])
       (mk_pbf 1 3 8 1)).
Proof.
  destruct (operations_in_bounds true overshift_modular
              (mem_of [Byte.x08; Byte.x01; Byte.x10]) (mk_pbf 1 3 8 1))
    as (Hnext & _ & _ & _ & _ & _ & _ & Hstring & _).
  - cbn. lia.
  - split; assumption.
Defined.


(** ** Scanning a message *)

(** [skip] steps over an encoded value of the wire type the cursor holds. *)
Lemma skip_encoded_value debug overshift mem f c :
  well_formed f ->
  wire_type c = wire_type_of (snd f) ->
  stored mem (data c) (encode_value (snd f)) ->
  data c + Z.of_nat (List.length (encode_value (snd f))) <= end_ c ->
  outcome_of (skip debug overshift mem c) = Ok tt /\
  cursor_of (skip debug overshift mem c) =
    advance c (Z.of_nat (List.length (encode_value (snd f)))).
Proof.
  intros [_ Hwf] Hw Hs Hroom. destruct f as [num v].
  cbn [snd] in *. destruct v as [n | bs | bs | bs];
    cbn [wire_type_of encode_value] in *.
  - assert (Hwt : wire_type_in debug c [0; 2]) by (right; rewrite Hw; cbn; auto).
    destruct (encode_varint_correct 10 n) as (Hv & _ & Hlen & _).
    { lia. }
    { split; [lia|]. apply Z.lt_le_trans with (2 ^ 64); [lia|].
      apply Z.pow_le_mono_r; lia. }
    rewrite skip_varint by assumption.
    rewrite (varint_decode debug overshift mem uint32_t _ c Hwt Hv Hlen Hs Hroom).
    split; reflexivity.
  - rewrite skip_fixed64, skipBytes_eq by assumption.
    rewrite Hwf in *. change (Z.of_nat 8) with 8 in *.
    replace (data c + 8 >? end_ c) with false
      by (symmetry; rewrite Z.gtb_ltb; apply Z.ltb_ge; lia).
    split; reflexivity.
  - assert (Hwt : wire_type_in debug c [0; 2]) by (right; rewrite Hw; cbn; auto).
    apply stored_app in Hs. destruct Hs as [Hs1 Hs2].
    rewrite length_app, Nat2Z.inj_add in Hroom.
    rewrite skip_length_delimited by assumption.
    rewrite (varint_encode_varint debug overshift mem uint32_t
               (Z.of_nat (List.length bs)) c)
      by (cbn [bits uint32_t]; assumption || lia).
    assert (HL : 0 <= Z.of_nat (List.length bs) < 2 ^ 32) by lia.
    rewrite !wrap_uint32, !(Z.mod_small _ _ HL).
    cbn [data end_ advance].
    replace (_ >? _) with false
      by (symmetry; rewrite Z.gtb_ltb; apply Z.ltb_ge; lia).
    rewrite advance_advance, length_app, Nat2Z.inj_add.
    split; reflexivity.
  - rewrite skip_fixed32, skipBytes_eq by assumption.
    rewrite Hwf in *. change (Z.of_nat 4) with 4 in *.
    replace (data c + 4 >? end_ c) with false
      by (symmetry; rewrite Z.gtb_ltb; apply Z.ltb_ge; lia).
    split; reflexivity.
Qed.

(** X19. [next(tag)] over a message: with the encoding of the well-formed
    fields [fs] from the cursor to [end], [next(t)] returns true on the
    first field numbered [t], the cursor on the first byte of its value
    with [tag = t] and the wire type of that value, every field before it
    skipped whole; when no field is numbered [t] it returns false with the
    cursor at [end].  Where asserts are compiled in this needs every wire
    type to be 0 or 2, that of the cursor at the start included. *)
Theorem next_tag_finds_field debug overshift mem t fs : forall c,
  Forall well_formed fs ->
  debug = false \/
    (In (wire_type c) [0; 2] /\
     Forall (fun f => In (wire_type_of (snd f)) [0; 2]) fs) ->
  stored mem (data c) (encode_fields fs) ->
  end_ c = data c + Z.of_nat (List.length (encode_fields fs)) ->
  match locate t fs with
  | Some (off, v) =>
      outcome_of (next_tag debug overshift mem t c) = Ok true /\
      cursor_of (next_tag debug overshift mem t c) =
        mk_pbf (data c + off) (end_ c) (pack_key t (wire_type_of v)) t /\
      stored mem (data c + off) (encode_value v)
  | None =>
      outcome_of (next_tag debug overshift mem t c) = Ok false /\
      data (cursor_of (next_tag debug overshift mem t c)) = end_ c /\
      end_ (cursor_of (next_tag debug overshift mem t c)) = end_ c
  end.
Proof.
  induction fs as [|f fs IH]; intros c Hwf Hpre Hs Hend.
  - cbn [locate encode_fields flat_map List.length] in *.
    change (Z.of_nat 0) with 0 in Hend.
    rewrite next_tag_unfold, next_eq.
    replace (data c <? end_ c) with false by (symmetry; apply Z.ltb_ge; lia).
    cbn [outcome_of cursor_of fst snd]. repeat split; lia.
  - cbn [encode_fields flat_map] in Hs, Hend.
    fold (encode_fields fs) in Hs, Hend.
    unfold encode_field in Hs, Hend. rewrite <- app_assoc in Hs.
    apply stored_app in Hs. destruct Hs as [Hkey Hs].
    apply stored_app in Hs. destruct Hs as [Hval Hrest].
    rewrite !length_app, !Nat2Z.inj_add in Hend.
    inversion Hwf as [|f' fs' Hf Hwf']; subst f' fs'.
    pose proof Hf as [Hnum _].
    assert (Hwt : 0 <= wire_type_of (snd f) < 8)
      by (destruct (snd f); cbn; lia).
    assert (Hc : wire_type_in debug c [0; 2])
      by (destruct Hpre as [-> | [Hc _]]; [now left | now right]).
    destruct (next_on_key debug overshift mem (fst f) (wire_type_of (snd f)) c)
      as [Hnext Hland]; try assumption.
    { fold (encode_key f). lia. }
    fold (encode_key f) in Hnext.
    rewrite next_tag_unfold, Hnext. cbn [tag locate].
    destruct (fst f =? t) eqn:Et.
    + apply Z.eqb_eq in Et. rewrite <- Et.
      cbn [outcome_of cursor_of fst snd]. repeat split. exact Hval.
    + set (c1 := mk_pbf (data c + Z.of_nat (List.length (encode_key f)))
                   (end_ c) (pack_key (fst f) (wire_type_of (snd f))) (fst f)).
      destruct (skip_encoded_value debug overshift mem f c1) as [Ho Hcur];
        try assumption.
      { subst c1; cbn [data end_]. lia. }
      destruct (skip debug overshift mem c1) as [[[[]|e] c2] r2];
        cbn [outcome_of cursor_of fst snd] in Ho, Hcur; [|discriminate].
      subst c2. unfold prepend_reads. cbn [outcome_of cursor_of fst snd].
      set (c2 := advance c1 (Z.of_nat (List.length (encode_value (snd f))))).
      assert (Hd2 : data c2 =
                    data c + Z.of_nat (List.length (encode_key f)) +
                    Z.of_nat (List.length (encode_value (snd f))))
        by reflexivity.
      assert (He2 : end_ c2 = end_ c) by reflexivity.
      specialize (IH c2 Hwf').
      rewrite Hd2, He2 in IH.
      assert (Hpre2 : debug = false \/
                (In (wire_type c2) [0; 2] /\
                 Forall (fun f => In (wire_type_of (snd f)) [0; 2]) fs)).
      { destruct Hpre as [-> | [_ Hall]]; [now left | right].
        inversion Hall as [|f' fs' Hf0 Hall']; subst f' fs'.
        split; [|exact Hall'].
        change (wire_type c2)
          with (Z.land (pack_key (fst f) (wire_type_of (snd f))) 7).
        now rewrite Hland. }
      specialize (IH Hpre2 Hrest ltac:(lia)).
      destruct (locate t fs) as [[off v]|].
      * destruct IH as (Ho2 & Hc2 & Hst2).
        unfold encode_field. rewrite length_app, Nat2Z.inj_add.
        rewrite Ho2, Hc2. split; [reflexivity|]. split.
        -- f_equal. lia.
        -- replace (data c +
                    (Z.of_nat (List.length (encode_key f)) +
                     Z.of_nat (List.length (encode_value (snd f))) + off))
             with (data c + Z.of_nat (List.length (encode_key f)) +
                   Z.of_nat (List.length (encode_value (snd f))) + off) by lia.
           exact Hst2.
      * destruct IH as (Ho2 & Hc2 & Hc2').
        rewrite Ho2, Hc2, Hc2'. repeat split.
Qed.

Lemma next_tag_finds_field_witness :
  outcome_of
    (next_tag true overshift_modular
       (mem_of (encode_fields
                  [(1, V_bytes [Byte.x68; Byte.x69]); (2, V_varint 300)]))
       2 (new_pbf 0 7)) = Ok true /\
  cursor_of
    (next_tag true overshift_modular
       (mem_of (encode_fields
                  [(1, V_bytes [Byte.x68; Byte.x69]); (2, V_varint 300)]))
       2 (new_pbf 0 7)) = mk_pbf (0 + 5) 7 (pack_key 2 0) 2 /\
  stored
    (mem_of (encode_fields
               [(1, V_bytes [Byte.x68; Byte.x69]); (2, V_varint 300)]))
    (0 + 5) (encode_value (V_varint 300)).
Proof.
  apply (next_tag_finds_field true overshift_modular
           (mem_of (encode_fields
                      [(1, V_bytes [Byte.x68; Byte.x69]); (2, V_varint 300)]))
           2 [(1, V_bytes [Byte.x68; Byte.x69]); (2, V_varint 300)]
           (new_pbf 0 7)).
  - repeat (apply Forall_cons || apply Forall_nil);
      (split; [cbn; lia | vm_compute; intuition discriminate]).
  - right. split; [cbn; auto|].
    repeat (apply Forall_cons || apply Forall_nil); cbn; auto.
  - apply stored_mem_of.
  - vm_compute. reflexivity.
Defined.

End Pbf.
